(** * kubernetes-mesos: the framework scheduler plugin, the slave-side
      executor and the mesos HTTP client, embedded as state-passing functions.

    Sources embedded here:
    - [pkg/executor] (type [KubernetesExecutor] and its driver callbacks),
    - [pkg/scheduler/plugin.go] (binder, kubeScheduler, errorHandler, deleter),
    - [pkg/cloud/mesos/client.go] (mesosClient.httpDo).

    Go maps are [gmap]s, pointers to tasks are locations in an explicit heap,
    calls to external collaborators (driver, REST client, codecs) are recorded
    in logs carried by the state and their outcomes are taken as parameters. *)

From stdpp Require Import gmap strings list fin_maps.

Open Scope string_scope.
Open Scope list_scope.
Open Scope nat_scope.

(* ===================================================================== *)
(** ** The executor (slave side)                                          *)
(* ===================================================================== *)

Module Executor.

(** [mesos.TaskState] values the executor emits. *)
Inductive TaskState :=
  | TASK_RUNNING
  | TASK_FAILED
  | TASK_KILLED
  | TASK_LOST.

(** [mesos.TaskInfo]: the task id and the opaque data payload. *)
Record TaskInfo := mkTaskInfo {
  GetTaskId : string;
  GetData : string
}.

(** [mesos.TaskStatus] as built by [sendStatusUpdate] and by the launch watcher. *)
Record TaskStatus := mkTaskStatus {
  status_TaskId : string;
  status_State : TaskState;
  status_Message : string;
  status_Data : option string
}.

(** [api.BoundPod], reduced to the fields the executor reads plus its spec. *)
Record BoundPod := mkBoundPod {
  bp_Name : string;
  bp_Namespace : string;
  bp_Spec : string
}.

(** [kubelet.PodOperation] and [kubelet.PodUpdate]. *)
Inductive PodOperation :=
  | SET
  | ADD
  | REMOVE
  | UPDATE.

Record PodUpdate := mkPodUpdate {
  Pods : list BoundPod;
  Op : PodOperation
}.

Record kuberTask := mkKuberTask {
  mesosTaskInfo : TaskInfo;
  podName : string
}.

(** Goroutines started by [LaunchTask]: the launch watcher, and the monitor
    the watcher starts once the pod is reported running. *)
Inductive Goroutine :=
  | LaunchWatcher (taskInfo : TaskInfo) (podFullName : string)
  | PodMonitor (taskInfo : TaskInfo) (podFullName : string).

(** [KubernetesExecutor].  [updateChan] is the sequence of values sent on the
    update channel, [driver] the sequence of status updates handed to
    [driver.SendStatusUpdate], [spawned] the goroutines started so far. *)
Record KubernetesExecutor := mkExecutor {
  updateChan : list PodUpdate;
  driver : list TaskStatus;
  registered : bool;
  tasks : gmap string kuberTask;
  pods : gmap string BoundPod;
  sourcename : string;
  spawned : list Goroutine
}.

Definition set_updateChan (f : list PodUpdate → list PodUpdate) (k : KubernetesExecutor) :=
  mkExecutor (f (updateChan k)) (driver k) (registered k) (tasks k) (pods k)
             (sourcename k) (spawned k).
Definition set_driver (f : list TaskStatus → list TaskStatus) (k : KubernetesExecutor) :=
  mkExecutor (updateChan k) (f (driver k)) (registered k) (tasks k) (pods k)
             (sourcename k) (spawned k).
Definition set_registered (b : bool) (k : KubernetesExecutor) :=
  mkExecutor (updateChan k) (driver k) b (tasks k) (pods k) (sourcename k) (spawned k).
Definition set_tasks (f : gmap string kuberTask → gmap string kuberTask)
    (k : KubernetesExecutor) :=
  mkExecutor (updateChan k) (driver k) (registered k) (f (tasks k)) (pods k)
             (sourcename k) (spawned k).
Definition set_pods (f : gmap string BoundPod → gmap string BoundPod)
    (k : KubernetesExecutor) :=
  mkExecutor (updateChan k) (driver k) (registered k) (tasks k) (f (pods k))
             (sourcename k) (spawned k).
Definition set_spawned (f : list Goroutine → list Goroutine) (k : KubernetesExecutor) :=
  mkExecutor (updateChan k) (driver k) (registered k) (tasks k) (pods k)
             (sourcename k) (f (spawned k)).

(** [New]: a fresh, unregistered executor with empty maps. *)
Definition New (ns : string) : KubernetesExecutor :=
  mkExecutor [] [] false ∅ ∅ ns [].

Definition Registered (k : KubernetesExecutor) := set_registered true k.
Definition Reregistered (k : KubernetesExecutor) := set_registered true k.
Definition Disconnected (k : KubernetesExecutor) := set_registered false k.

(** [sendStatusUpdate]: a failed send is only logged, so the state records the
    update that was handed to the driver. *)
Definition sendStatusUpdate (taskId : string) (state : TaskState) (message : string)
    (k : KubernetesExecutor) : KubernetesExecutor :=
  set_driver (λ d, d ++ [mkTaskStatus taskId state message None]) k.

(** The loop [for _, p := range k.pods { update.Pods = append(update.Pods, *p) }].
    Go leaves the iteration order unspecified; the order of [map_to_list] is
    taken. *)
Definition allPods (m : gmap string BoundPod) : list BoundPod :=
  (map_to_list m).*2.

(** The three places that send on [k.updateChan] all read
    [update := kubelet.PodUpdate{Op: kubelet.SET}; for ...; k.updateChan <- update]. *)
Definition sendPodUpdates (k : KubernetesExecutor) : KubernetesExecutor :=
  let update := mkPodUpdate (allPods (pods k)) SET in
  set_updateChan (λ c, c ++ [update]) k.

(** The update that lists the whole bound-pods map of [k] under [SET]. *)
Definition fullSet (k : KubernetesExecutor) : PodUpdate :=
  mkPodUpdate (allPods (pods k)) SET.

Section WithCodecs.

(** [yaml.Unmarshal(taskInfo.GetData(), &pod)]: [None] stands for a non-nil error. *)
Variable yamlUnmarshal : string → option BoundPod.
(** [kubelet.GetPodFullName] of a pod with the given name, namespace and
    config-source annotation. *)
Variable GetPodFullName : string → string → string → string.

Definition LaunchTask (taskInfo : TaskInfo) (k : KubernetesExecutor)
    : KubernetesExecutor :=
  if negb (registered k) then
    sendStatusUpdate (GetTaskId taskInfo) TASK_FAILED "Executor not registered yet" k
  else
    let taskId := GetTaskId taskInfo in
    match tasks k !! taskId with
    | Some _ => k
    | None =>
        match yamlUnmarshal (GetData taskInfo) with
        | None =>
            sendStatusUpdate (GetTaskId taskInfo) TASK_FAILED
                             "Failed to extract yaml data" k
        | Some pod =>
            let podFullName :=
              GetPodFullName (bp_Name pod) (bp_Namespace pod) (sourcename k) in
            let k := set_tasks (insert taskId (mkKuberTask taskInfo podFullName)) k in
            let k := set_pods (insert podFullName pod) k in
            let k := sendPodUpdates k in
            set_spawned (λ g, g ++ [LaunchWatcher taskInfo podFullName]) k
        end
    end.

End WithCodecs.

Definition killPodForTask (tid reason : string) (k : KubernetesExecutor)
    : KubernetesExecutor :=
  match tasks k !! tid with
  | None => k
  | Some task =>
      let k := set_tasks (delete tid) k in
      let pid := podName task in
      let k :=
        match pods k !! pid with
        | None => k
        | Some _ => sendPodUpdates (set_pods (delete pid) k)
        end in
      sendStatusUpdate (GetTaskId (mesosTaskInfo task)) TASK_KILLED reason k
  end.

Definition reportLostTask (tid reason : string) (k : KubernetesExecutor)
    : KubernetesExecutor :=
  match tasks k !! tid with
  | None => k
  | Some task =>
      let k := set_tasks (delete tid) k in
      let pid := podName task in
      let k :=
        match pods k !! pid with
        | None => k
        | Some _ => sendPodUpdates (set_pods (delete pid) k)
        end in
      sendStatusUpdate (GetTaskId (mesosTaskInfo task)) TASK_LOST reason k
  end.

Definition KillTask (taskId : string) (k : KubernetesExecutor) : KubernetesExecutor :=
  if negb (registered k) then k
  else killPodForTask taskId "Task killed" k.

(** [checkForLostPodTask]: returns the new state and whether monitoring stops. *)
Definition checkForLostPodTask (taskInfo : TaskInfo) (isKnownPod : bool)
    (k : KubernetesExecutor) : KubernetesExecutor * bool :=
  let taskId := GetTaskId taskInfo in
  match tasks k !! taskId with
  | Some _ =>
      if isKnownPod then (k, false)
      else (reportLostTask taskId "Task lost: container disappeared" k, true)
  | None => (k, true)
  end.

(** [Shutdown]: [for tid, _ := range k.tasks { k.killPodForTask(tid, ...) }].
    Each iteration deletes only the key it is visiting, so every key present
    at entry is visited. *)
Definition Shutdown (k : KubernetesExecutor) : KubernetesExecutor :=
  foldl (λ k tid, killPodForTask tid "Executor shutdown" k) k
        (map_to_list (tasks k)).*1.

(** The launch watcher found the pod's network container running: it sends
    TASK_RUNNING with the marshalled pod info and starts the monitor. *)
Definition watcherFoundPod (taskInfo : TaskInfo) (podFullName data : string)
    (k : KubernetesExecutor) : KubernetesExecutor :=
  let statusUpdate :=
    mkTaskStatus (GetTaskId taskInfo) TASK_RUNNING
                 ("Pod '" +:+ podFullName +:+ "' is running") (Some data) in
  let k := set_driver (λ d, d ++ [statusUpdate]) k in
  set_spawned (λ g, g ++ [PodMonitor taskInfo podFullName]) k.

(** The launch watcher ran out of its grace period. *)
Definition watcherExpired (taskId : string) (k : KubernetesExecutor) : KubernetesExecutor :=
  reportLostTask taskId "Task lost: launch failed" k.

(** Everything that can happen to an executor: the driver callbacks and the
    steps of the goroutines it started. *)
Inductive Event :=
  | EvRegistered
  | EvReregistered
  | EvDisconnected
  | EvLaunchTask (taskInfo : TaskInfo)
  | EvKillTask (taskId : string)
  | EvFrameworkMessage (message : string)
  | EvShutdown
  | EvError (message : string)
  | EvWatcherFoundPod (taskInfo : TaskInfo) (podFullName data : string)
  | EvWatcherExpired (taskId : string)
  | EvMonitorTick (taskInfo : TaskInfo) (isKnownPod : bool).

Section Handle.

Variable yamlUnmarshal : string → option BoundPod.
Variable GetPodFullName : string → string → string → string.

Definition handle (e : Event) (k : KubernetesExecutor) : KubernetesExecutor :=
  match e with
  | EvRegistered => Registered k
  | EvReregistered => Reregistered k
  | EvDisconnected => Disconnected k
  | EvLaunchTask ti => LaunchTask yamlUnmarshal GetPodFullName ti k
  | EvKillTask tid => KillTask tid k
  | EvFrameworkMessage _ => k
  | EvShutdown => Shutdown k
  | EvError _ => k
  | EvWatcherFoundPod ti name data => watcherFoundPod ti name data k
  | EvWatcherExpired tid => watcherExpired tid k
  | EvMonitorTick ti known => (checkForLostPodTask ti known k).1
  end.

Definition run (es : list Event) (k : KubernetesExecutor) : KubernetesExecutor :=
  foldl (λ k e, handle e k) k es.

(** The critical sections of the executor: every function that runs under
    [k.lock] and touches the task map, the bound-pods map or the update
    channel, plus the changes of [registered]. *)
Inductive estep : KubernetesExecutor → KubernetesExecutor → Prop :=
  | estep_registered k b : estep k (set_registered b k)
  | estep_launch k taskInfo :
      estep k (LaunchTask yamlUnmarshal GetPodFullName taskInfo k)
  | estep_kill k tid reason : estep k (killPodForTask tid reason k)
  | estep_lost k tid reason : estep k (reportLostTask tid reason k)
  | estep_found k taskInfo podFullName data :
      estep k (watcherFoundPod taskInfo podFullName data k).

End Handle.

(** Every bound pod belongs to a task on file. *)
Definition podsHaveTasks (k : KubernetesExecutor) : Prop :=
  ∀ pid, is_Some (pods k !! pid) →
         ∃ tid task, tasks k !! tid = Some task ∧ podName task = pid.

(** What the container runtime was last told is what the executor has on
    file: the last update sent lists the current bound pods, and as long as
    nothing was sent no pod is bound. *)
Definition runtimeInSync (k : KubernetesExecutor) : Prop :=
  match last (updateChan k) with
  | Some u => u = fullSet k
  | None => pods k = ∅
  end.

(** Every task is on file under the id of its own TaskInfo. *)
Definition taskKeysMatch (k : KubernetesExecutor) : Prop :=
  ∀ tid task, tasks k !! tid = Some task → GetTaskId (mesosTaskInfo task) = tid.

(** A status that is not a terminal status of task [tid]: it is about another
    task, or it is a TASK_RUNNING. *)
Definition notTerminalFor (tid : string) (st : TaskStatus) : Prop :=
  status_TaskId st = tid → status_State st = TASK_RUNNING.

(** The status [killPodForTask] and [reportLostTask] report for a task. *)
Definition terminalStatus (st : TaskState) (reason : string) (task : kuberTask)
    : TaskStatus :=
  mkTaskStatus (GetTaskId (mesosTaskInfo task)) st reason None.

(** A concrete codec and two payloads, used to run the executor. *)
Definition sampleUnmarshal (data : string) : option BoundPod :=
  if bool_decide (data = "") then None else Some (mkBoundPod data "default" data).

Definition sampleFullName (name namespace source : string) : string :=
  name +:+ "." +:+ namespace +:+ "." +:+ source.

Definition sampleTask : TaskInfo := mkTaskInfo "task-1" "nginx".
Definition garbledTask : TaskInfo := mkTaskInfo "task-2" "".

Definition sampleExecutor : KubernetesExecutor :=
  LaunchTask sampleUnmarshal sampleFullName sampleTask (Registered (New "mesos")).

End Executor.

(* ===================================================================== *)
(** ** The scheduler plugin (framework side)                              *)
(* ===================================================================== *)

Module Scheduler.

Inductive stateType :=
  | statePending
  | stateRunning
  | stateFinished
  | stateUnknown.

(** Go [error] values.  The three sentinels are compared with [==] in the
    source; [Errorf] is an error built by [fmt.Errorf] (format and printed
    arguments), [ErrorfCause] one whose last argument is another error;
    [externalErr] comes from a collaborator; [nilDereference] stands for the
    runtime panic of a nil dereference. *)
Inductive error :=
  | noSuchPodErr
  | noSuitableOffersErr
  | noSuchTaskErr
  | Errorf (format : string) (args : list string)
  | ErrorfCause (format : string) (args : list string) (cause : error)
  | externalErr (msg : string)
  | nilDereference.

(** A Go result pair [(value, error)]. *)
Inductive result (A : Type) :=
  | Ok (a : A)
  | Err (e : error).
Arguments Ok {A} a.
Arguments Err {A} e.

(** [mesos.Offer]. *)
Record MesosOffer := mkOffer {
  offer_Id : string;
  offer_SlaveId : string;
  offer_Hostname : string
}.

(** Modelled from the spec: a [PerishableOffer] is an offer with an expiration
    timestamp; a task that accepts it holds it ([acquired]) until it is
    released.  The type is declared in the offer registry, which is not part
    of the sources at hand. *)
Record PerishableOffer := mkPerishable {
  Details : MesosOffer;
  expiration : Z;
  acquired : bool
}.

(** Modelled from the spec: a listener registered with [Listen]; the predicate
    is the closure built in [handleSchedulingError], represented by the task id
    it captures, [notify] is the break channel handed back. *)
Record Listener := mkListener {
  listener_taskId : string;
  listener_notify : nat
}.

(** Modelled from the spec: the offer registry ([Get], [Invalidate], [Listen],
    wall-clock expiry).  Offers are referred to by their identifier. *)
Record OfferRegistry := mkRegistry {
  offerMap : gmap string PerishableOffer;
  listeners : gmap string Listener;
  nextChan : nat;
  clock : Z
}.

Record Slave := mkSlave {
  HostName : string
}.

(** [mesos.TaskInfo], the fields the plugin and the task helpers touch. *)
Record TaskInfo := mkTaskInfo {
  TaskId : option string;
  SlaveId : option string;
  Data : option string
}.

(** [api.Pod], reduced to what the plugin reads and writes. *)
Record ApiPod := mkApiPod {
  Name : string;
  Namespace : string;
  Status_Host : string;
  pod_Spec : string
}.

(** [PodTask].  [Offer] is the attached offer (by identifier), [None] for nil. *)
Record PodTask := mkPodTask {
  ID : string;
  podKey : string;
  Pod : ApiPod;
  Offer : option string;
  taskInfo : TaskInfo;
  launched : bool;
  deleted : bool
}.

(** The scheduler-local [Pod] wrapper handed to the delay queue (the name
    [Pod] is taken by the field of [PodTask]). *)
Record schedulerPod := mkPod {
  pod_Pod : ApiPod;
  deadline : option Z;
  delay : option Z;
  notify : option nat
}.

Record EnvVar := mkEnvVar {
  env_Name : string;
  env_Value : string
}.

Record Container := mkContainer {
  container_Name : string;
  Env : list EnvVar
}.

Record BoundPod := mkBoundPod {
  bound_Name : string;
  SelfLink : string;
  Containers : list Container
}.

Record Binding := mkBinding {
  binding_Namespace : string;
  PodID : string;
  Host : string
}.

(** Calls issued to the mesos scheduler driver. *)
Inductive DriverCall :=
  | LaunchTasks (offerId : string) (taskList : list TaskInfo)
  | KillTask (taskId : string).

(** A pointer to a [PodTask]: a location in the heap, [None] for nil. *)
Abbreviation loc := nat.

(** [KubernetesScheduler], seen through [k8smScheduler]: the task registries
    hold pointers into [heap]; [driver] records the calls made to the driver. *)
Record KubernetesScheduler := mkScheduler {
  heap : list PodTask;
  podToTask : gmap string string;
  pendingTasks : gmap string loc;
  runningTasks : gmap string loc;
  finishedTasks : list string;
  slaves : gmap string Slave;
  offers : OfferRegistry;
  driver : list DriverCall
}.

Definition set_heap (f : list PodTask → list PodTask) (k : KubernetesScheduler) :=
  mkScheduler (f (heap k)) (podToTask k) (pendingTasks k) (runningTasks k)
              (finishedTasks k) (slaves k) (offers k) (driver k).
Definition set_podToTask (f : gmap string string → gmap string string)
    (k : KubernetesScheduler) :=
  mkScheduler (heap k) (f (podToTask k)) (pendingTasks k) (runningTasks k)
              (finishedTasks k) (slaves k) (offers k) (driver k).
Definition set_pendingTasks (f : gmap string loc → gmap string loc)
    (k : KubernetesScheduler) :=
  mkScheduler (heap k) (podToTask k) (f (pendingTasks k)) (runningTasks k)
              (finishedTasks k) (slaves k) (offers k) (driver k).
Definition set_offers (f : OfferRegistry → OfferRegistry) (k : KubernetesScheduler) :=
  mkScheduler (heap k) (podToTask k) (pendingTasks k) (runningTasks k)
              (finishedTasks k) (slaves k) (f (offers k)) (driver k).
Definition set_driver (f : list DriverCall → list DriverCall) (k : KubernetesScheduler) :=
  mkScheduler (heap k) (podToTask k) (pendingTasks k) (runningTasks k)
              (finishedTasks k) (slaves k) (offers k) (f (driver k)).

Definition set_offerMap (f : gmap string PerishableOffer → gmap string PerishableOffer)
    (r : OfferRegistry) :=
  mkRegistry (f (offerMap r)) (listeners r) (nextChan r) (clock r).

(** *** Task helpers *)

Definition emptyTaskInfo : TaskInfo := mkTaskInfo None None None.

Definition set_taskInfo (ti : TaskInfo) (t : PodTask) :=
  mkPodTask (ID t) (podKey t) (Pod t) (Offer t) ti (launched t) (deleted t).
Definition set_Offer (o : option string) (t : PodTask) :=
  mkPodTask (ID t) (podKey t) (Pod t) o (taskInfo t) (launched t) (deleted t).
Definition set_launched (b : bool) (t : PodTask) :=
  mkPodTask (ID t) (podKey t) (Pod t) (Offer t) (taskInfo t) b (deleted t).
Definition set_deleted (b : bool) (t : PodTask) :=
  mkPodTask (ID t) (podKey t) (Pod t) (Offer t) (taskInfo t) (launched t) b.
Definition set_Status_Host (h : string) (t : PodTask) :=
  mkPodTask (ID t) (podKey t)
            (mkApiPod (Name (Pod t)) (Namespace (Pod t)) h (pod_Spec (Pod t)))
            (Offer t) (taskInfo t) (launched t) (deleted t).
Definition set_Data (d : option string) (t : PodTask) :=
  set_taskInfo (mkTaskInfo (TaskId (taskInfo t)) (SlaveId (taskInfo t)) d) t.

(** Modelled from the spec: [hasAcceptedOffer] holds when an offer is attached
    to the task ("a pending task with an accepted offer"); the method is
    declared with [PodTask], outside the sources at hand. *)
Definition hasAcceptedOffer (t : PodTask) : bool :=
  match Offer t with
  | Some _ => true
  | None => false
  end.

(** Modelled from the spec: the identifier of the attached offer, empty when
    there is none. *)
Definition GetOfferId (t : PodTask) : string :=
  match Offer t with
  | Some id => id
  | None => ""
  end.

(** Modelled from the spec: [ClearTaskInfo] detaches the offer and clears the
    synthesized TaskInfo payload. *)
Definition ClearTaskInfo (t : PodTask) : PodTask :=
  set_taskInfo emptyTaskInfo (set_Offer None t).

(** Modelled from the spec: [FillTaskInfo] attaches the offer to the task and
    fills the TaskInfo from it. *)
Definition FillTaskInfo (offer : PerishableOffer) (t : PodTask) : PodTask :=
  set_taskInfo
    (mkTaskInfo (Some (ID t)) (Some (offer_SlaveId (Details offer)))
                (Data (taskInfo t)))
    (set_Offer (Some (offer_Id (Details offer))) t).

(** *** Offer registry helpers *)

(** Modelled from the spec: [Get(id) → (offer, present)]. *)
Definition Get (id : string) (r : OfferRegistry) : option PerishableOffer :=
  offerMap r !! id.

(** Modelled from the spec: an offer has expired once the wall clock has
    passed its expiration timestamp. *)
Definition HasExpired (r : OfferRegistry) (o : PerishableOffer) : bool :=
  bool_decide (expiration o < clock r)%Z.

(** Modelled from the spec: on [Invalidate] the offer is removed without
    firing listeners. *)
Definition Invalidate (id : string) (r : OfferRegistry) : OfferRegistry :=
  set_offerMap (delete id) r.

(** Modelled from the spec: [Release] gives an accepted offer back; the offer
    object is reached through the registry entry of the same identifier. *)
Definition release (o : PerishableOffer) : PerishableOffer :=
  mkPerishable (Details o) (expiration o) false.
Definition Release (id : string) (r : OfferRegistry) : OfferRegistry :=
  set_offerMap (alter release id) r.

(** Modelled from the spec: [Listen(pod-key, predicate) → breakChannel]
    registers the predicate under the pod-key and hands back a new channel. *)
Definition Listen (key : string) (taskId : string) (r : OfferRegistry)
    : OfferRegistry * nat :=
  let ch := nextChan r in
  (mkRegistry (offerMap r) (<[key := mkListener taskId ch]> (listeners r))
              (S ch) (clock r), ch).

(** *** Historical store, delay queue and backoff table *)

Inductive EventType :=
  | ADD_EVENT
  | UPDATE_EVENT
  | DELETE_EVENT
  | POP_EVENT.

Global Instance EventType_eq_dec : EqDecision EventType.
Proof. solve_decision. Defined.

(** Modelled from the spec: the historical store is a FIFO of entries;
    [Poll(key, eventKind)] consumes the matching event and returns true iff it
    was observed. *)
Definition Entry : Type := string * EventType.

Definition entryIs (id : string) (t : EventType) (e : Entry) : bool :=
  bool_decide (e.1 = id) && bool_decide (e.2 = t).

Fixpoint consume (id : string) (t : EventType) (store : list Entry) : list Entry :=
  match store with
  | [] => []
  | e :: rest => if entryIs id t e then rest else e :: consume id t rest
  end.

Definition Poll (id : string) (t : EventType) (store : list Entry) : bool * list Entry :=
  if existsb (entryIs id t) store then (true, consume id t store)
  else (false, store).

(** [queuer]: the delay queue keyed by the pods' uid, and the number of
    broadcasts on its two condition variables. *)
Record queuer := mkQueuer {
  podQueue : gmap string schedulerPod;
  deltaCond : nat;
  unscheduledCond : nat
}.

Inductive InsertPolicy :=
  | KeepExisting
  | ReplaceExisting.

(** Modelled from the spec: [Add(pod, policy)] on the delay queue; with
    [KeepExisting] an entry already queued under the key is left alone. *)
Definition queueAdd (key : string) (pod : schedulerPod) (policy : InsertPolicy)
    (q : gmap string schedulerPod) : gmap string schedulerPod :=
  match policy, q !! key with
  | KeepExisting, Some _ => q
  | _, _ => <[key := pod]> q
  end.

(** Modelled from the spec: the backoff table maps a pod-key to its duration
    and last update; the initial duration is 1s, doubling up to a cap of 60s;
    entries older than twice the cap are collected. Durations are in seconds. *)
Record backoffEntry := mkBackoffEntry {
  backoff : Z;
  lastUpdate : Z
}.

Record podBackoff := mkPodBackoff {
  perPodBackoff : gmap string backoffEntry;
  backoff_clock : Z
}.

Definition maxDuration : Z := 60.

Definition gc (p : podBackoff) : podBackoff :=
  mkPodBackoff
    (filter (λ kv, (backoff_clock p - lastUpdate kv.2 ≤ 2 * maxDuration)%Z)
            (perPodBackoff p))
    (backoff_clock p).

Definition currentBackoff (podID : string) (p : podBackoff) : Z :=
  match perPodBackoff p !! podID with
  | Some entry => backoff entry
  | None => 1%Z
  end.

Definition getBackoff (podID : string) (p : podBackoff) : podBackoff * Z :=
  let duration := currentBackoff podID p in
  let next := Z.min (2 * duration) maxDuration in
  (mkPodBackoff (<[podID := mkBackoffEntry next (backoff_clock p)]> (perPodBackoff p))
                (backoff_clock p),
   duration).

(** *** The plugin and its collaborators *)

(** What [NewPluginConfig] wires together: the binder, the algorithm, the
    error handler and the deleter all share one [k8smScheduler] ([api]), one
    pod store and one queuer.  [client] records the bindings POSTed to the
    control plane.  The scheduler lock taken by each operation is not
    modelled: the operations below are the critical sections, run one at a
    time. *)
Record Plugin := mkPlugin {
  api : KubernetesScheduler;
  client : list Binding;
  podStore : list Entry;
  qr : queuer;
  backoffTable : podBackoff
}.

Definition set_api (f : KubernetesScheduler → KubernetesScheduler) (w : Plugin) :=
  mkPlugin (f (api w)) (client w) (podStore w) (qr w) (backoffTable w).
Definition set_client (f : list Binding → list Binding) (w : Plugin) :=
  mkPlugin (api w) (f (client w)) (podStore w) (qr w) (backoffTable w).
Definition set_podStore (f : list Entry → list Entry) (w : Plugin) :=
  mkPlugin (api w) (client w) (f (podStore w)) (qr w) (backoffTable w).
Definition set_qr (f : queuer → queuer) (w : Plugin) :=
  mkPlugin (api w) (client w) (podStore w) (f (qr w)) (backoffTable w).
Definition set_backoffTable (f : podBackoff → podBackoff) (w : Plugin) :=
  mkPlugin (api w) (client w) (podStore w) (qr w) (f (backoffTable w)).

(** Functions of other packages and outcomes of remote calls, which the
    plugin only consumes. *)
Class Collaborators := {
  (** [makePodKey(ctx, id)], from the context's namespace and the pod's name *)
  makePodKey : string → string → result string;
  (** [meta.Accessor(&pod)] followed by [meta.Name()] *)
  metaAccessor : ApiPod → result string;
  (** the method [GetUID] of the pod wrapper *)
  GetUID : schedulerPod → string;
  (** [newPodTask(ctx, pod, executor)] *)
  newPodTask : string → ApiPod → result PodTask;
  (** the configured [PodScheduleFunc]: it may acquire an offer in the
      registry and touch the task it is given *)
  scheduleFunc : OfferRegistry → gmap string Slave → PodTask →
                 OfferRegistry * PodTask * result PerishableOffer;
  (** the method [AcceptOffer] of [PodTask] *)
  AcceptOffer : PodTask → MesosOffer → bool;
  (** [client.Pods(ns).Get(name)] *)
  client_GetPod : string → string → result ApiPod;
  (** [client.Services(ns).List(labels.Everything())] *)
  client_ListServices : string → result (list string);
  (** [envvars.FromServices] *)
  FromServices : list string → list EnvVar;
  (** [api.Scheme.Convert(pod, boundPod)] *)
  Scheme_Convert : ApiPod → result BoundPod;
  (** [yaml.Marshal(&boundPod)]: the bytes and the error it returns *)
  yaml_Marshal : BoundPod → option string * option error;
  (** the outcome of POSTing the binding *)
  client_PostBinding : string → Binding → option error;
  (** the outcome of [driver.LaunchTasks] *)
  driver_LaunchTasks : string → list TaskInfo → option error;
  (** the outcome of [driver.KillTask] *)
  driver_KillTask : string → option error
}.

Abbreviation ptr := (option nat).

Section Plugin.

Context {C : Collaborators}.

(** Reading and writing through a task pointer. *)
Definition deref (task : ptr) (k : KubernetesScheduler) : option PodTask :=
  match task with
  | Some l => heap k !! l
  | None => None
  end.

Definition update (task : ptr) (f : PodTask → PodTask) (k : KubernetesScheduler)
    : KubernetesScheduler :=
  match task with
  | Some l => set_heap (alter f l) k
  | None => k
  end.

(** *** [k8smScheduler] *)

Definition taskForPod (podID : string) (k : KubernetesScheduler) : option string :=
  podToTask k !! podID.

Definition createPodTask (ns : string) (pod : ApiPod) (k : KubernetesScheduler)
    : KubernetesScheduler * (ptr * option error) :=
  match newPodTask ns pod with
  | Ok t => (set_heap (λ h, h ++ [t]) k, (Some (length (heap k)), None))
  | Err e => (k, (None, Some e))
  end.

Definition registerPodTask (task : ptr) (err : option error) (k : KubernetesScheduler)
    : KubernetesScheduler * (ptr * option error) :=
  match err with
  | None =>
      match task, deref task k with
      | Some l, Some t =>
          let k := set_podToTask (<[podKey t := ID t]>) k in
          let k := set_pendingTasks (<[ID t := l]>) k in
          (k, (task, err))
      | _, _ => (k, (task, Some nilDereference))
      end
  | Some _ => (k, (task, err))
  end.

Definition slaveFor (id : string) (k : KubernetesScheduler) : option Slave :=
  slaves k !! id.

Definition unregisterPodTask (t : PodTask) (k : KubernetesScheduler)
    : KubernetesScheduler :=
  let k := set_podToTask (delete (podKey t)) k in
  set_pendingTasks (delete (ID t)) k.

Definition killTask (taskId : string) (k : KubernetesScheduler)
    : KubernetesScheduler * option error :=
  (set_driver (λ d, d ++ [KillTask taskId]) k, driver_KillTask taskId).

Definition launchTask (task : ptr) (k : KubernetesScheduler)
    : KubernetesScheduler * option error :=
  match deref task k with
  | Some t =>
      let taskList := [taskInfo t] in
      match Offer t with
      | Some offerId =>
          (set_driver (λ d, d ++ [LaunchTasks offerId taskList]) k,
           driver_LaunchTasks offerId taskList)
      | None => (k, Some nilDereference)
      end
  | None => (k, Some nilDereference)
  end.

(** Modelled from the spec: [getTask] of the pod-task store, which "maps
    task-id → task and tracks task states (pending, running, finished)"; the
    method is declared with [KubernetesScheduler], outside the sources at
    hand.  A task id is pending when [pendingTasks] holds it (that is where
    [registerPodTask] puts it), running when [runningTasks] does. *)
Definition getTask (taskId : string) (k : KubernetesScheduler) : ptr * stateType :=
  match pendingTasks k !! taskId with
  | Some l => (Some l, statePending)
  | None =>
      match runningTasks k !! taskId with
      | Some l => (Some l, stateRunning)
      | None =>
          if bool_decide (taskId ∈ finishedTasks k) then (None, stateFinished)
          else (None, stateUnknown)
      end
  end.

(** [task.Offer.Release()]: [None] when [task] or [task.Offer] is nil. *)
Definition Offer_Release (task : ptr) (k : KubernetesScheduler)
    : option KubernetesScheduler :=
  match deref task k with
  | Some t =>
      match Offer t with
      | Some offerId => Some (set_offers (Release offerId) k)
      | None => None
      end
  | None => None
  end.

(** *** [binder] *)

Definition getServiceEnvironmentVariables (ns : string) : result (list EnvVar) :=
  match client_ListServices ns with
  | Ok services => Ok (FromServices services)
  | Err e => Err e
  end.

Definition prepareTaskForLaunch (ns machine : string) (task : ptr) (w : Plugin)
    : Plugin * option error :=
  match deref task (api w) with
  | None => (w, Some nilDereference)
  | Some t =>
      match client_GetPod ns (Name (Pod t)) with
      | Err e => (w, Some e)
      | Ok pod =>
          match getServiceEnvironmentVariables ns with
          | Err e => (w, Some e)
          | Ok envVars =>
              match Scheme_Convert pod with
              | Err e => (w, Some e)
              | Ok boundPod =>
                  let containers :=
                    map (λ c, mkContainer (container_Name c) (Env c ++ envVars))
                        (Containers boundPod) in
                  let boundPod :=
                    mkBoundPod (bound_Name boundPod)
                               ("/api/v1beta1/boundPods/" +:+ bound_Name boundPod)
                               containers in
                  let '(data, err) := yaml_Marshal boundPod in
                  (set_api (update task (set_Data data)) w, err)
              end
          end
      end
  end.

(** The two statements [task.Offer.Release(); task.ClearTaskInfo()] followed
    by [return err], which end both failure paths of [bind]. *)
Definition releaseAndFail (task : ptr) (err : error) (w : Plugin)
    : Plugin * option error :=
  match Offer_Release task (api w) with
  | Some k => (set_api (λ _, update task ClearTaskInfo k) w, Some err)
  | None => (w, Some nilDereference)
  end.

Definition bind (ns : string) (binding : Binding) (task : ptr) (w : Plugin)
    : Plugin * option error :=
  match deref task (api w) with
  | None => (w, Some nilDereference)
  | Some t =>
      if negb (hasAcceptedOffer t) then
        (w, Some (Errorf "task has not accepted a valid offer %v" [ID t]))
      else
        let offerId := GetOfferId t in
        let live :=
          match Get offerId (offers (api w)) with
          | Some offer => negb (HasExpired (offers (api w)) offer)
          | None => false
          end in
        if negb live then
          releaseAndFail task
            (Errorf "failed prior to launchTask due to expired offer for task %v" [ID t])
            w
        else
          let failed err :=
            releaseAndFail task
              (ErrorfCause "Failed to launch task %v: %v" [ID t] err) in
          match prepareTaskForLaunch ns (Host binding) task w with
          | (w, Some err) => failed err w
          | (w, None) =>
              let w := set_client (λ c, c ++ [binding]) w in
              match client_PostBinding ns binding with
              | Some err => failed err w
              | None =>
                  match launchTask task (api w) with
                  | (k, Some err) => failed err (set_api (λ _, k) w)
                  | (k, None) =>
                      let k := set_offers (Invalidate offerId) k in
                      let k := update task (set_Status_Host (Host binding)) k in
                      let k := update task (set_launched true) k in
                      (set_api (λ _, k) w, None)
                  end
              end
          end
  end.

Definition Bind (binding : Binding) (w : Plugin) : Plugin * option error :=
  let ns := binding_Namespace binding in
  match makePodKey ns (PodID binding) with
  | Err e => (w, Some e)
  | Ok podKey =>
      match taskForPod podKey (api w) with
      | None => (w, Some noSuchPodErr)
      | Some taskId =>
          match getTask taskId (api w) with
          | (task, statePending) => bind ns binding task w
          | _ => (w, Some noSuchPodErr)
          end
      end
  end.

(** *** [kubeScheduler] *)

Definition doSchedule (task : ptr) (err : option error) (k : KubernetesScheduler)
    : KubernetesScheduler * result string :=
  let '(k, matched) :=
    match err with
    | None =>
        match deref task k with
        | Some t =>
            let '(registry, t', r) := scheduleFunc (offers k) (slaves k) t in
            (update task (λ _, t') (set_offers (λ _, registry) k), r)
        | None => (k, Err nilDereference)
        end
    | Some e => (k, Err e)
    end in
  match matched with
  | Err e => (k, Err e)
  | Ok offer =>
      let slaveId := offer_SlaveId (Details offer) in
      match slaveFor slaveId k, deref task k with
      | _, None => (k, Err nilDereference)
      | None, Some t =>
          let k := set_offers (Release (offer_Id (Details offer))) k in
          let k := set_offers (Invalidate (offer_Id (Details offer))) k in
          let k := update task ClearTaskInfo k in
          (k, Err (Errorf "Slave disappeared (%v) while scheduling task %v"
                          [slaveId; ID t]))
      | Some slave, Some _ =>
          (update task (FillTaskInfo offer) k, Ok (HostName slave))
      end
  end.

Definition Schedule (pod : ApiPod) (w : Plugin) : Plugin * result string :=
  let ns := Namespace pod in
  match makePodKey ns (Name pod) with
  | Err e => (w, Err e)
  | Ok podKey =>
      match taskForPod podKey (api w) with
      | None =>
          match metaAccessor pod with
          | Err _ => (w, Err noSuchPodErr)
          | Ok name =>
              let '(deleted, store) := Poll name DELETE_EVENT (podStore w) in
              let w := set_podStore (λ _, store) w in
              if deleted then (w, Err noSuchPodErr)
              else
                let '(k, (task, err)) := createPodTask ns pod (api w) in
                let '(k, (task, err)) := registerPodTask task err k in
                let '(k, r) := doSchedule task err k in
                (set_api (λ _, k) w, r)
          end
      | Some taskID =>
          match getTask taskID (api w) with
          | (task, statePending) =>
              match deref task (api w) with
              | None => (w, Err nilDereference)
              | Some t =>
                  if launched t then
                    (w, Err (Errorf "task %s has already been launched, aborting schedule"
                                    [taskID]))
                  else
                    let '(k, r) := doSchedule task None (api w) in
                    (set_api (λ _, k) w, r)
              end
          | _ =>
              (w, Err (Errorf "task %s is not pending, nothing to schedule" [taskID]))
          end
      end
  end.

(** *** [queuer] *)

Definition updatesAvailable (q : queuer) : queuer :=
  mkQueuer (podQueue q) (S (deltaCond q)) (unscheduledCond q).

Definition dequeue (id : string) (q : queuer) : queuer :=
  mkQueuer (delete id (podQueue q)) (deltaCond q) (unscheduledCond q).

Definition requeue (pod : schedulerPod) (q : queuer) : queuer :=
  mkQueuer (queueAdd (GetUID pod) pod KeepExisting (podQueue q))
           (deltaCond q) (S (unscheduledCond q)).

(** [yield], run on the values that successive [q.podQueue.Await] calls hand
    back ([None] for a timeout, after which the loop waits and goes round
    again).  The Go loop only ends by returning a pod; the result is [None]
    here when the given values are used up before that. *)
Fixpoint yield (awaited : list (option schedulerPod)) (store : list Entry)
    : option ApiPod * list Entry :=
  match awaited with
  | [] => (None, store)
  | None :: awaited => yield awaited store
  | Some kpod :: awaited =>
      let pod := pod_Pod kpod in
      match metaAccessor pod with
      | Err _ => yield awaited store
      | Ok name =>
          let '(popped, store) := Poll name POP_EVENT store in
          if negb popped then yield awaited store
          else if negb (bool_decide (Status_Host pod = "")) then yield awaited store
          else (Some pod, store)
      end
  end.

(** *** [errorHandler] *)

(** The predicate handed to [Listen]; it captures [taskId] and reads the
    scheduler's state when an offer arrives. *)
Definition offerFilter (taskId : string) (k : KubernetesScheduler) (offer : MesosOffer)
    : bool :=
  match getTask taskId k with
  | (task, statePending) =>
      match deref task k with
      | Some t => negb (launched t) && AcceptOffer t offer
      | None => false
      end
  | _ => false
  end.

Definition handleSchedulingError (pod : ApiPod) (schedulingErr : error) (w : Plugin)
    : Plugin :=
  match schedulingErr with
  | noSuchPodErr => w
  | _ =>
      match makePodKey (Namespace pod) (Name pod) with
      | Err _ => w
      | Ok podKey =>
          let w := set_backoffTable gc w in
          match taskForPod podKey (api w) with
          | None => w
          | Some taskId =>
              match getTask taskId (api w) with
              | (task, statePending) =>
                  match deref task (api w) with
                  | None => w
                  | Some t =>
                      if launched t then w
                      else
                        let '(w, offersAvailable) :=
                          match schedulingErr with
                          | noSuitableOffersErr =>
                              let '(registry, ch) :=
                                Listen podKey taskId (offers (api w)) in
                              (set_api (set_offers (λ _, registry)) w, Some ch)
                          | _ => (w, None)
                          end in
                        let '(table, d) := getBackoff podKey (backoffTable w) in
                        let w := set_backoffTable (λ _, table) w in
                        set_qr (requeue (mkPod pod None (Some d) offersAvailable)) w
                  end
              | _ => w
              end
          end
      end
  end.

(** *** [deleter] *)

Definition deleteOne (pod : schedulerPod) (w : Plugin) : Plugin * option error :=
  match makePodKey (Namespace (pod_Pod pod)) (Name (pod_Pod pod)) with
  | Err e => (w, Some e)
  | Ok podKey =>
      let w := set_qr (dequeue (GetUID pod)) w in
      match taskForPod podKey (api w) with
      | None => (w, Some noSuchPodErr)
      | Some taskId =>
          let kill :=
            let k := update (getTask taskId (api w)).1 (set_deleted true) (api w) in
            let k := update (getTask taskId (api w)).1 (set_Status_Host "") k in
            let '(k, err) := killTask taskId k in
            (set_api (λ _, k) w, err) in
          match getTask taskId (api w) with
          | (task, statePending) =>
              match deref task (api w) with
              | None => (w, Some nilDereference)
              | Some t =>
                  if negb (launched t) then
                    let k :=
                      if hasAcceptedOffer t then
                        match Offer_Release task (api w) with
                        | Some k => update task ClearTaskInfo k
                        | None => api w
                        end
                      else api w in
                    (set_api (λ _, unregisterPodTask t k) w, None)
                  else kill
              end
          | (task, stateRunning) =>
              match deref task (api w) with
              | None => (w, Some nilDereference)
              | Some _ => kill
              end
          | _ => (w, Some noSuchTaskErr)
          end
      end
  end.

End Plugin.

(** What an operation on one task must leave alone: the task registries, the
    slave map, the number of tasks allocated, the pod store, the queuer and
    the backoff table. *)
Definition bookkeeping (w : Plugin) :=
  (podToTask (api w), pendingTasks (api w), runningTasks (api w),
   finishedTasks (api w), slaves (api w), length (heap (api w)),
   podStore w, qr w, backoffTable w).

(** Whether the offer [id] is in the registry and has not expired, as [bind]
    checks it. *)
Definition offerLive (id : string) (r : OfferRegistry) : bool :=
  match Get id r with
  | Some offer => negb (HasExpired r offer)
  | None => false
  end.

(** *** A concrete plugin, used to run the operations *)

Definition acquire (o : PerishableOffer) : PerishableOffer :=
  mkPerishable (Details o) (expiration o) true.

(** First come, first served over the one offer id ["O1"]. *)
Definition sampleScheduleFunc (r : OfferRegistry) (_ : gmap string Slave) (t : PodTask)
    : OfferRegistry * PodTask * result PerishableOffer :=
  match offerMap r !! "O1" with
  | Some o =>
      if acquired o then (r, t, Err noSuitableOffersErr)
      else (set_offerMap (<["O1" := acquire o]>) r, t, Ok (acquire o))
  | None => (r, t, Err noSuitableOffersErr)
  end.

Definition sampleCollaborators : Collaborators := {|
  makePodKey ns id := Ok (ns +:+ "/" +:+ id);
  metaAccessor pod := Ok (Name pod);
  GetUID pod := Name (pod_Pod pod);
  newPodTask ns pod :=
    Ok (mkPodTask ("task-" +:+ Name pod) (ns +:+ "/" +:+ Name pod) pod None
                  emptyTaskInfo false false);
  scheduleFunc := sampleScheduleFunc;
  AcceptOffer _ _ := true;
  client_GetPod ns name := Ok (mkApiPod name ns "" "spec");
  client_ListServices _ := Ok ["kubernetes"];
  FromServices services := map (λ s, mkEnvVar s "10.0.0.1") services;
  Scheme_Convert pod := Ok (mkBoundPod (Name pod) "" [mkContainer "main" []]);
  yaml_Marshal bp := (Some (SelfLink bp), None);
  client_PostBinding _ _ := None;
  driver_LaunchTasks _ _ := None;
  driver_KillTask _ := None
|}.

Definition samplePod : ApiPod := mkApiPod "foo" "ns" "" "spec".

Definition sampleOffer : PerishableOffer :=
  mkPerishable (mkOffer "O1" "S1" "host1") 100 false.

Definition sampleScheduler : KubernetesScheduler :=
  mkScheduler [] ∅ ∅ ∅ [] {["S1" := mkSlave "host1"]}
              (mkRegistry {["O1" := sampleOffer]} ∅ 0 0) [].

Definition samplePlugin : Plugin :=
  mkPlugin sampleScheduler [] [] (mkQueuer ∅ 0 0) (mkPodBackoff ∅ 0).

(** The plugin after [Schedule] has placed the sample pod on offer ["O1"]. *)
Definition scheduledPlugin : Plugin :=
  (Schedule (C := sampleCollaborators) samplePod samplePlugin).1.

(** The task [Schedule] created for the sample pod, as placed on ["O1"]. *)
Definition freshTask : PodTask :=
  mkPodTask "task-foo" "ns/foo" samplePod None emptyTaskInfo false false.

Definition placedTask : PodTask :=
  mkPodTask "task-foo" "ns/foo" samplePod (Some "O1")
            (mkTaskInfo (Some "task-foo") (Some "S1") None) false false.

Definition sampleBinding : Binding := mkBinding "ns" "foo" "host1".

(** The plugin after [Bind] has launched the task. *)
Definition launchedPlugin : Plugin :=
  (Bind (C := sampleCollaborators) sampleBinding scheduledPlugin).1.

(** The plugin once the task has been moved to the running tasks. *)
Definition runningPlugin : Plugin :=
  set_api (λ k, mkScheduler (heap k) (podToTask k) ∅ (pendingTasks k)
                            (finishedTasks k) (slaves k) (offers k) (driver k))
          launchedPlugin.

(** A scheduler with the sample task registered and not yet matched, and the
    same scheduler with an empty slave map. *)
Definition registeredScheduler : KubernetesScheduler :=
  mkScheduler [freshTask] {["ns/foo" := "task-foo"]} {["task-foo" := 0]} ∅ []
              {["S1" := mkSlave "host1"]}
              (mkRegistry {["O1" := sampleOffer]} ∅ 0 0) [].

Definition orphanedScheduler : KubernetesScheduler :=
  mkScheduler [freshTask] {["ns/foo" := "task-foo"]} {["task-foo" := 0]} ∅ []
              ∅ (mkRegistry {["O1" := sampleOffer]} ∅ 0 0) [].

(** A plugin whose pod store holds a DELETE for the sample pod. *)
Definition deletedPlugin : Plugin :=
  set_podStore (λ _, [("foo", DELETE_EVENT)]) samplePlugin.

(** A plugin whose delay queue holds the sample pod, not yet scheduled. *)
Definition queuedPlugin : Plugin :=
  set_qr (λ q, mkQueuer (<["foo" := mkPod samplePod (Some 0%Z) None None]> (podQueue q))
                        (deltaCond q) (unscheduledCond q))
         samplePlugin.

End Scheduler.

(* ===================================================================== *)
(** ** The mesos HTTP client: [httpDo]                                    *)
(* ===================================================================== *)

Module MesosClient.

Section HttpDo.

(** What [c.client.Do(req)] hands to the response handler, and Go errors. *)
Variable Response : Type.
Variable error : Type.

(** The response handler [f] and the value of [ctx.Err()] once the context
    is done. *)
Variable f : Response → option error.
Variable ctxErr : error.

(** Where [httpDo] itself stands: at the [select], past [CancelRequest] and
    blocked on [<-ch], or returned. *)
Inductive Caller :=
  | AtSelect
  | WaitingForHandler
  | Returned (err : option error).

(** Where the goroutine [go func() { ch <- f(c.client.Do(req)) }()] stands:
    inside [client.Do], inside [f] with the response it got, or finished
    (its send on the 1-buffered channel never blocks). *)
Inductive Handler :=
  | InFlight
  | InHandler (res : Response)
  | Finished (res : Response).

Record State := mkState {
  caller : Caller;
  handler : Handler;
  ch : option (option error);
  done : bool;
  cancelRequested : bool
}.

(** [ch := make(chan error, 1)] and the goroutine has been started. *)
Definition init : State := mkState AtSelect InFlight None false false.

(** One step of the caller, of the goroutine, or of the context. *)
Inductive step : State → State → Prop :=
  | step_ctx_done s :
      done s = false →
      step s (mkState (caller s) (handler s) (ch s) true (cancelRequested s))
  | step_do_returns s res :
      handler s = InFlight →
      step s (mkState (caller s) (InHandler res) (ch s) (done s) (cancelRequested s))
  | step_handler_returns s res :
      handler s = InHandler res →
      step s (mkState (caller s) (Finished res) (Some (f res)) (done s)
                      (cancelRequested s))
  | step_select_done s :
      caller s = AtSelect →
      done s = true →
      step s (mkState WaitingForHandler (handler s) (ch s) (done s) true)
  | step_select_recv s err :
      caller s = AtSelect →
      ch s = Some err →
      step s (mkState (Returned err) (handler s) None (done s) (cancelRequested s))
  | step_wait_recv s err :
      caller s = WaitingForHandler →
      ch s = Some err →
      step s (mkState (Returned (Some ctxErr)) (handler s) None (done s)
                      (cancelRequested s)).

Definition reachable (s : State) : Prop := rtc step init s.

(** [httpDo] has returned [err] the right way: the goroutine has finished,
    and either the request was cancelled once the context was done and [err]
    is the context's error, or it was not cancelled and [err] is what the
    handler returned. *)
Definition returnedRight (s : State) (err : option error) : Prop :=
  ∃ res, handler s = Finished res ∧
         ((cancelRequested s = true ∧ done s = true ∧ err = Some ctxErr) ∨
          (cancelRequested s = false ∧ err = f res)).

(** The invariant of [httpDo]: whatever sits in the channel is the result of
    the finished handler, and the caller's position fixes whether the request
    has been cancelled. *)
Definition inv (s : State) : Prop :=
  (∀ e, ch s = Some e → ∃ res, handler s = Finished res ∧ e = f res) ∧
  match caller s with
  | AtSelect => cancelRequested s = false
  | WaitingForHandler => cancelRequested s = true ∧ done s = true
  | Returned err => returnedRight s err
  end.

End HttpDo.

Arguments AtSelect {error}.
Arguments WaitingForHandler {error}.
Arguments Returned {error} err.
Arguments InFlight {Response}.
Arguments InHandler {Response} res.
Arguments Finished {Response} res.
Arguments mkState {Response error}.
Arguments caller {Response error}.
Arguments handler {Response error}.
Arguments ch {Response error}.
Arguments done {Response error}.
Arguments cancelRequested {Response error}.
Arguments init {Response error}.
Arguments step {Response error} f ctxErr.
Arguments reachable {Response error} f ctxErr s.
Arguments returnedRight {Response error} f ctxErr s err.
Arguments inv {Response error} f ctxErr s.

(** Before [httpDo] has returned, the result of a finished handler is still
    in the channel, waiting to be received. *)
Definition resultKept {Response error : Type} (f : Response → option error)
    (s : State Response error) : Prop :=
  match caller s with
  | Returned _ => True
  | _ => ∀ res, handler s = Finished res → ch s = Some (f res)
  end.

(** *** The response handlers of [EnumerateSlaves] and
        [slaveRunningKubeletExecutor], and [EnlistedSlaves] *)

Import Stdlib.Strings.Ascii.

(** Errors the client hands back: an error of the transport, a status other
    than 200 (built with [fmt.Errorf]), a failed read of the body, a failed
    JSON decoding, and the error of a cancelled context. *)
Inductive clientError :=
  | transportErr (msg : string)
  | statusErr (code : nat) (status : string)
  | readErr (msg : string)
  | jsonErr (msg : string)
  | contextErr (msg : string).

(** [*http.Response]: the status and what [ioutil.ReadAll(res.Body)] gives. *)
Record HttpResponse := mkResponse {
  StatusCode : nat;
  Status : string;
  Body : string + clientError
}.

(** An entry of ["slaves"] in the master's state, and an executor entry of a
    framework in a slave's state. *)
Record SlaveEntry := mkSlaveEntry {
  slave_Id : string;
  Pid : string;
  Hostname : string
}.

Record ExecutorEntry := mkExecutorEntry {
  executor_ID : string;
  Source : string
}.

Fixpoint contains (c : Ascii.ascii) (s : string) : bool :=
  match s with
  | EmptyString => false
  | String c' s => Ascii.eqb c' c || contains c s
  end.

(** Where [sep] first occurs in [s]: what is before it and what is after. *)
Fixpoint cut (sep : Ascii.ascii) (s : string) : option (string * string) :=
  match s with
  | EmptyString => None
  | String c s =>
      if Ascii.eqb c sep then Some (EmptyString, s)
      else match cut sep s with
           | Some (before, after) => Some (String c before, after)
           | None => None
           end
  end.

(** [strings.SplitN(s, "@", 2)]. *)
Definition SplitN2 (s : string) : list string :=
  match cut "@"%char s with
  | Some (before, after) => [before; after]
  | None => [s]
  end.

(** The body of the loop over [state.Slaves]: the host appended for a slave
    pid, if any. *)
Definition pidHost (pid : string) : option string :=
  if bool_decide (pid = "") then None
  else
    match SplitN2 pid with
    | [_; host] => if bool_decide (0 < String.length host) then Some host else None
    | _ => None
    end.

Definition collectHosts (slaves : list SlaveEntry) : list string :=
  foldl (λ hosts slave,
           match pidHost (Pid slave) with
           | Some host => hosts ++ [host]
           | None => hosts
           end) [] slaves.

Section Handlers.

(** [json.Unmarshal] of the master's state and of a slave's state; the two
    config constants the slave handler compares with. *)
Variable unmarshalMaster : string → list SlaveEntry + clientError.
Variable unmarshalSlave : string → list (list ExecutorEntry) + clientError.
Variable DefaultInfoSource DefaultInfoID : string.

(** The handler passed to [httpDo] by [EnumerateSlaves], with the value it
    leaves in [hosts]. *)
Definition enumerateHandler (res : HttpResponse + clientError)
    : list string * option clientError :=
  match res with
  | inr err => ([], Some err)
  | inl res =>
      if negb (bool_decide (StatusCode res = 200)) then
        ([], Some (statusErr (StatusCode res) (Status res)))
      else
        match Body res with
        | inr err1 => ([], Some err1)
        | inl blob =>
            match unmarshalMaster blob with
            | inr err => ([], Some err)
            | inl slaves => (collectHosts slaves, None)
            end
        end
  end.

(** The handler passed to [httpDo] by [slaveRunningKubeletExecutor], with the
    value it leaves in [found]. *)
Definition executorHandler (res : HttpResponse + clientError)
    : bool * option clientError :=
  match res with
  | inr err => (false, Some err)
  | inl res =>
      if negb (bool_decide (StatusCode res = 200)) then
        (false, Some (statusErr (StatusCode res) (Status res)))
      else
        match Body res with
        | inr err1 => (false, Some err1)
        | inl blob =>
            match unmarshalSlave blob with
            | inr err => (false, Some err)
            | inl frameworks =>
                (existsb (λ executors,
                    existsb (λ e, bool_decide (Source e = DefaultInfoSource) &&
                                  bool_decide (executor_ID e = DefaultInfoID))
                            executors)
                   frameworks,
                 None)
            end
        end
  end.

(** [EnlistedSlaves], given what [EnumerateSlaves] returned, what
    [slaveRunningKubeletExecutor] returns for each slave and
    [net.SplitHostPort]. *)
Variable probe : string → bool * option clientError.
Variable SplitHostPort : string → option (string * string).

Definition EnlistedSlaves (enumerated : list string * option clientError)
    : option (list string) * option clientError :=
  match enumerated with
  | (_, Some err) => (None, Some err)
  | (slaves, None) =>
      (Some (foldl (λ results slave,
                      if (probe slave).1 then
                        match SplitHostPort slave with
                        | Some (host, _) => results ++ [host]
                        | None => results
                        end
                      else results) [] slaves),
       None)
  end.

End Handlers.

(** A master state with one slave that has a pid and one that has none, a
    slave state with the executor of this framework, and a probe that finds
    the executor on port 5051 only. *)
Definition sampleMaster (_ : string) : list SlaveEntry + clientError :=
  inl [mkSlaveEntry "S1" "slave(1)@10.22.211.18:5051" "10.22.211.18";
       mkSlaveEntry "S2" "" "10.22.211.19"].

Definition sampleSlave (_ : string) : list (list ExecutorEntry) + clientError :=
  inl [[mkExecutorEntry "other" "other"]; [mkExecutorEntry "KubeleteExecutorID" "kubernetes"]].

Definition okResponse : HttpResponse + clientError :=
  inl (mkResponse 200 "200 OK" (inl "{}")).

Definition sampleProbe (slave : string) : bool * option clientError :=
  if bool_decide (slave = "10.22.211.18:5051") then (true, None)
  else (false, Some (transportErr "connection refused")).

Definition sampleSplitHostPort (hostport : string) : option (string * string) :=
  if bool_decide (hostport = "10.22.211.18:5051") then Some ("10.22.211.18", "5051")
  else None.

(** A concrete handler in the style of [EnumerateSlaves]: only status 200 is
    accepted.  [cancelledRun] is the state after the context was cancelled
    while the request was in flight and [httpDo] has returned. *)
Definition sampleHandler (status : nat) : option string :=
  if bool_decide (status = 200) then None
  else Some "HTTP request failed".

Definition cancelledRun : State nat string :=
  mkState (Returned (Some "context canceled")) (Finished 200) None true true.

End MesosClient.

(* ===================================================================== *)
(** ** Properties of the executor                                         *)
(* ===================================================================== *)

Module ExecutorSpec.
Import Executor.

Section Proofs.

Variable yamlUnmarshal : string → option BoundPod.
Variable GetPodFullName : string → string → string → string.

Local Abbreviation LaunchTask := (LaunchTask yamlUnmarshal GetPodFullName).
Local Abbreviation estep := (estep yamlUnmarshal GetPodFullName).
Local Abbreviation handle := (handle yamlUnmarshal GetPodFullName).
Local Abbreviation run := (run yamlUnmarshal GetPodFullName).

Lemma removal_chan (tid reason : string) (st : TaskState) (task : kuberTask) k :
  let k1 := set_tasks (delete tid) k in
  let k2 := match pods k1 !! podName task with
            | None => k1
            | Some _ => sendPodUpdates (set_pods (delete (podName task)) k1)
            end in
  let k' := sendStatusUpdate (GetTaskId (mesosTaskInfo task)) st reason k2 in
  updateChan k' = updateChan k ∨ updateChan k' = updateChan k ++ [fullSet k'].
Proof.
  simpl. destruct (pods k !! podName task) as [p|]; [right | left]; reflexivity.
Qed.

Lemma estep_chan k k' :
  estep k k' →
  updateChan k' = updateChan k ∨ updateChan k' = updateChan k ++ [fullSet k'].
Proof.
  intros Hstep. destruct Hstep as [k b|k ti|k tid reason|k tid reason|k ti n d].
  - left; reflexivity.
  - unfold Executor.LaunchTask.
    destruct (registered k); simpl; [| left; reflexivity].
    destruct (tasks k !! GetTaskId ti); [left; reflexivity |].
    destruct (yamlUnmarshal (GetData ti)); [right | left]; reflexivity.
  - unfold killPodForTask.
    destruct (tasks k !! tid) as [task|]; [| left; reflexivity].
    apply removal_chan.
  - unfold reportLostTask.
    destruct (tasks k !! tid) as [task|]; [| left; reflexivity].
    apply removal_chan.
  - left; reflexivity.
Qed.

Lemma reach_sends k k' :
  rtc estep k k' →
  ∀ i u, updateChan k' !! i = Some u → length (updateChan k) ≤ i →
    Op u = SET ∧
    ∃ km, rtc estep k km ∧ rtc estep km k' ∧
          updateChan km = take (S i) (updateChan k') ∧
          Pods u = allPods (pods km).
Proof.
  intros Hreach. pattern k'. revert k' Hreach. apply rtc_ind_r.
  - intros i u Hi Hlen. apply lookup_lt_Some in Hi. lia.
  - intros k1 k2 Hreach Hstep IH i u Hi Hlen.
    destruct (estep_chan _ _ Hstep) as [E|E].
    + rewrite E in Hi. destruct (IH i u Hi Hlen) as (Hop & km & R1 & R2 & Hc & Hp).
      split; [done |]. exists km. repeat split; try done.
      * eapply rtc_r; eauto.
      * by rewrite E.
    + rewrite E in Hi. destruct (decide (i < length (updateChan k1))) as [Hlt|Hge].
      * rewrite lookup_app_l in Hi by done.
        destruct (IH i u Hi Hlen) as (Hop & km & R1 & R2 & Hc & Hp).
        split; [done |]. exists km. repeat split; try done.
        -- eapply rtc_r; eauto.
        -- rewrite E, take_app_le by lia. done.
      * rewrite lookup_app_r in Hi by lia.
        destruct (i - length (updateChan k1)) as [|n] eqn:Hn; simpl in Hi; [| done].
        injection Hi as <-. split; [reflexivity |].
        exists k2. repeat split.
        -- eapply rtc_r; eauto.
        -- apply rtc_refl.
        -- rewrite take_ge; [done |]. rewrite E at 1. rewrite length_app. simpl. lia.
Qed.

Lemma killPodForTask_fold_reach reason tids k :
  rtc estep k (foldl (λ k tid, killPodForTask tid reason k) k tids).
Proof.
  revert k. induction tids as [|tid tids IH]; intros k; simpl; [apply rtc_refl |].
  eapply rtc_l; [apply estep_kill | apply IH].
Qed.

Lemma handle_reach e k : rtc estep k (handle e k).
Proof.
  destruct e; simpl; try apply rtc_refl; try (apply rtc_once; constructor).
  - unfold KillTask. destruct (negb (registered k)); [apply rtc_refl |].
    apply rtc_once; constructor.
  - apply killPodForTask_fold_reach.
  - unfold checkForLostPodTask. destruct (tasks k !! GetTaskId taskInfo);
      [destruct isKnownPod |]; simpl; try apply rtc_refl.
    apply rtc_once; constructor.
Qed.

Lemma run_reach es k : rtc estep k (run es k).
Proof.
  revert k. induction es as [|e es IH]; intros k; simpl; [apply rtc_refl |].
  etrans; [apply handle_reach | apply IH].
Qed.

End Proofs.

(** Claim C7.  [LaunchTask] on an unregistered executor hands one TASK_FAILED
    status to the driver and records nothing; on a task id already in the task
    map it leaves the executor exactly as it was (no status update, no state
    change); and for a new task id whose payload fails YAML extraction it hands
    one TASK_FAILED status to the driver. *)
Theorem LaunchTask_rejections
    (yamlUnmarshal : string → option BoundPod)
    (GetPodFullName : string → string → string → string)
    (taskInfo : TaskInfo) (k : KubernetesExecutor) :
  let k' := LaunchTask yamlUnmarshal GetPodFullName taskInfo k in
  (registered k = false →
     driver k' = driver k ++ [mkTaskStatus (GetTaskId taskInfo) TASK_FAILED
                                           "Executor not registered yet" None] ∧
     tasks k' = tasks k ∧ pods k' = pods k ∧ updateChan k' = updateChan k ∧
     spawned k' = spawned k) ∧
  (registered k = true → is_Some (tasks k !! GetTaskId taskInfo) → k' = k) ∧
  (registered k = true → tasks k !! GetTaskId taskInfo = None →
     yamlUnmarshal (GetData taskInfo) = None →
     driver k' = driver k ++ [mkTaskStatus (GetTaskId taskInfo) TASK_FAILED
                                           "Failed to extract yaml data" None] ∧
     tasks k' = tasks k ∧ pods k' = pods k ∧ updateChan k' = updateChan k ∧
     spawned k' = spawned k).
Proof.
  intros k'. subst k'. unfold LaunchTask. split; [| split].
  - intros Hreg. rewrite Hreg. done.
  - intros Hreg [task Htask]. rewrite Hreg, Htask. done.
  - intros Hreg Htask Hyaml. rewrite Hreg, Htask, Hyaml. done.
Qed.

Lemma LaunchTask_rejections_witness :
  driver (LaunchTask sampleUnmarshal sampleFullName sampleTask (New "mesos"))
    = [mkTaskStatus "task-1" TASK_FAILED "Executor not registered yet" None] ∧
  LaunchTask sampleUnmarshal sampleFullName sampleTask sampleExecutor
    = sampleExecutor ∧
  driver (LaunchTask sampleUnmarshal sampleFullName garbledTask sampleExecutor)
    = [mkTaskStatus "task-2" TASK_FAILED "Failed to extract yaml data" None].
Proof.
  split; [| split].
  - destruct (LaunchTask_rejections sampleUnmarshal sampleFullName sampleTask
                (New "mesos")) as (H & _ & _).
    destruct H as (Hdriver & _); [reflexivity | exact Hdriver].
  - destruct (LaunchTask_rejections sampleUnmarshal sampleFullName sampleTask
                sampleExecutor) as (_ & H & _).
    apply H; [reflexivity | vm_compute; eauto].
  - destruct (LaunchTask_rejections sampleUnmarshal sampleFullName garbledTask
                sampleExecutor) as (_ & _ & H).
    destruct H as (Hdriver & _); [reflexivity | reflexivity | reflexivity |].
    exact Hdriver.
Defined.

(** What [allPods] lists: every pod bound in the map, under whatever name,
    and nothing else, once per name. *)
Lemma elem_of_allPods (pods : gmap string Executor.BoundPod) (p : Executor.BoundPod) :
  p ∈ allPods pods ↔ ∃ name, pods !! name = Some p.
Proof.
  unfold allPods. rewrite list_elem_of_fmap. split.
  - intros ([name p'] & -> & Hin). exists name. by apply elem_of_map_to_list.
  - intros [name Hname]. exists (name, p). split; [done |].
    by apply elem_of_map_to_list.
Qed.

Lemma length_allPods (pods : gmap string Executor.BoundPod) :
  length (allPods pods) = size pods.
Proof. unfold allPods. by rewrite length_fmap, length_map_to_list. Qed.

(** Claim C8.  Along any sequence of driver callbacks and goroutine steps,
    every update sent on the update channel has operation SET, and it carries
    the whole bound-pods map of the executor as it stood when the update was
    sent: there is a state [km] on the way whose channel log ends with this
    very update, and a pod is in the update exactly when it is bound, under
    some name, in the bound-pods map of [km], with as many entries in the
    update as there are names bound. *)
Theorem updates_are_full_SET
    (yamlUnmarshal : string → option BoundPod)
    (GetPodFullName : string → string → string → string)
    (es : list Event) (k : KubernetesExecutor) (i : nat) (u : PodUpdate) :
  let k' := run yamlUnmarshal GetPodFullName es k in
  updateChan k' !! i = Some u →
  length (updateChan k) ≤ i →
  Op u = SET ∧
  ∃ km, rtc (estep yamlUnmarshal GetPodFullName) k km ∧
        rtc (estep yamlUnmarshal GetPodFullName) km k' ∧
        updateChan km = take (S i) (updateChan k') ∧
        (∀ p, p ∈ Pods u ↔ ∃ name, pods km !! name = Some p) ∧
        length (Pods u) = size (pods km).
Proof.
  intros k' Hi Hlen.
  destruct (reach_sends yamlUnmarshal GetPodFullName k k'
              (run_reach yamlUnmarshal GetPodFullName es k) i u Hi Hlen)
    as (Hop & km & R1 & R2 & Hc & Hp).
  split; [exact Hop |]. exists km. split_and!; try done.
  - intros p. rewrite Hp. apply elem_of_allPods.
  - rewrite Hp. apply length_allPods.
Qed.

Lemma updates_are_full_SET_witness :
  let k := Registered (New "mesos") in
  let k' := run sampleUnmarshal sampleFullName
                [EvLaunchTask sampleTask; EvKillTask "task-1"] k in
  let u := mkPodUpdate [mkBoundPod "nginx" "default" "nginx"] SET in
  updateChan k' !! 0 = Some u ∧
  ∃ km, rtc (estep sampleUnmarshal sampleFullName) k km ∧
        rtc (estep sampleUnmarshal sampleFullName) km k' ∧
        updateChan km = take 1 (updateChan k') ∧
        (∀ p, p ∈ Pods u ↔ ∃ name, pods km !! name = Some p) ∧
        length (Pods u) = size (pods km).
Proof.
  intros k k' u. split; [reflexivity |].
  apply (updates_are_full_SET sampleUnmarshal sampleFullName
           [EvLaunchTask sampleTask; EvKillTask "task-1"] k 0 u).
  - reflexivity.
  - simpl. lia.
Defined.

(** Claim C10.  For a task id that is not in the task map, [killPodForTask]
    and [reportLostTask] return the executor unchanged (maps, update channel
    and status updates alike), and so does [KillTask]. *)
Theorem unknown_task_is_noop (tid reason : string) (k : KubernetesExecutor) :
  tasks k !! tid = None →
  killPodForTask tid reason k = k ∧
  reportLostTask tid reason k = k ∧
  KillTask tid k = k.
Proof.
  intros Htid. unfold KillTask, killPodForTask, reportLostTask. rewrite Htid.
  repeat split. by destruct (negb (registered k)).
Qed.

Lemma unknown_task_is_noop_witness :
  killPodForTask "task-9" "Task killed" sampleExecutor = sampleExecutor ∧
  reportLostTask "task-9" "Task lost: launch failed" sampleExecutor = sampleExecutor ∧
  KillTask "task-9" sampleExecutor = sampleExecutor.
Proof.
  split; [| split].
  - apply (unknown_task_is_noop "task-9" "Task killed" sampleExecutor). reflexivity.
  - apply (unknown_task_is_noop "task-9" "Task lost: launch failed" sampleExecutor).
    reflexivity.
  - apply (unknown_task_is_noop "task-9" "Task killed" sampleExecutor). reflexivity.
Defined.

End ExecutorSpec.

(* ===================================================================== *)
(** ** Properties of the scheduler plugin                                 *)
(* ===================================================================== *)

Module SchedulerSpec.
Import Scheduler.

Section Proofs.

Context {C : Collaborators}.

(** Writing through a pointer changes the task it points to and nothing else. *)
Lemma deref_update l f k t :
  heap k !! l = Some t →
  heap (update (Some l) f k) !! l = Some (f t).
Proof. intros H. simpl. by rewrite list_lookup_alter_eq, H. Qed.

Lemma prepareTaskForLaunch_cases ns machine l w t :
  heap (api w) !! l = Some t →
  (∃ e, prepareTaskForLaunch ns machine (Some l) w = (w, Some e)) ∨
  (∃ data err,
     prepareTaskForLaunch ns machine (Some l) w
       = (set_api (update (Some l) (set_Data data)) w, err)).
Proof.
  intros Hl. unfold prepareTaskForLaunch. simpl. rewrite Hl.
  destruct (client_GetPod ns (Name (Pod t))); [| left; eauto].
  destruct (getServiceEnvironmentVariables ns); [| left; eauto].
  destruct (Scheme_Convert a); [| left; eauto].
  destruct (yaml_Marshal _) as [data err]. right; eauto.
Qed.

(** The failure path of [bind]: offer released, TaskInfo cleared, error
    returned, registries untouched. *)
Lemma releaseAndFail_spec l e w t id :
  heap (api w) !! l = Some t →
  Offer t = Some id →
  let w' := (releaseAndFail (Some l) e w).1 in
  (releaseAndFail (Some l) e w).2 = Some e ∧
  heap (api w') !! l = Some (ClearTaskInfo t) ∧
  offers (api w') = Release id (offers (api w)) ∧
  pendingTasks (api w') = pendingTasks (api w) ∧
  runningTasks (api w') = runningTasks (api w) ∧
  finishedTasks (api w') = finishedTasks (api w).
Proof.
  intros Hl Ho. unfold releaseAndFail, Offer_Release. simpl. rewrite Hl, Ho. simpl.
  rewrite list_lookup_alter_eq, Hl. done.
Qed.

Lemma getTask_ext taskId k k' :
  pendingTasks k' = pendingTasks k →
  runningTasks k' = runningTasks k →
  finishedTasks k' = finishedTasks k →
  getTask taskId k' = getTask taskId k.
Proof. intros H1 H2 H3. unfold getTask. by rewrite H1, H2, H3. Qed.

Lemma Get_Release id r : Get id (Release id r) = release <$> Get id r.
Proof. unfold Get, Release. simpl. by rewrite lookup_alter_eq. Qed.

Lemma Get_Invalidate id r : Get id (Invalidate id r) = None.
Proof. unfold Get, Invalidate. simpl. by rewrite lookup_delete_eq. Qed.

(** What [bind] does to a pending task that holds offer [id]. *)
Lemma bind_spec ns binding l w t id :
  heap (api w) !! l = Some t →
  Offer t = Some id →
  let w' := (bind ns binding (Some l) w).1 in
  let err := (bind ns binding (Some l) w).2 in
  pendingTasks (api w') = pendingTasks (api w) ∧
  runningTasks (api w') = runningTasks (api w) ∧
  finishedTasks (api w') = finishedTasks (api w) ∧
  ((err = None ∧
    (∃ t', heap (api w') !! l = Some t' ∧ launched t' = true) ∧
    Get id (offers (api w')) = None) ∨
   (is_Some err ∧
    (∃ t', heap (api w') !! l = Some t' ∧ Offer t' = None ∧
           taskInfo t' = emptyTaskInfo ∧ launched t' = launched t) ∧
    Get id (offers (api w')) = release <$> Get id (offers (api w)))).
Proof.
  intros Hl Ho.
  assert (Hfail : ∀ e w1 t1,
    heap (api w1) !! l = Some t1 → Offer t1 = Some id → launched t1 = launched t →
    offers (api w1) = offers (api w) →
    pendingTasks (api w1) = pendingTasks (api w) →
    runningTasks (api w1) = runningTasks (api w) →
    finishedTasks (api w1) = finishedTasks (api w) →
    let w' := (releaseAndFail (Some l) e w1).1 in
    let err := (releaseAndFail (Some l) e w1).2 in
    pendingTasks (api w') = pendingTasks (api w) ∧
    runningTasks (api w') = runningTasks (api w) ∧
    finishedTasks (api w') = finishedTasks (api w) ∧
    ((err = None ∧
      (∃ t', heap (api w') !! l = Some t' ∧ launched t' = true) ∧
      Get id (offers (api w')) = None) ∨
     (is_Some err ∧
      (∃ t', heap (api w') !! l = Some t' ∧ Offer t' = None ∧
             taskInfo t' = emptyTaskInfo ∧ launched t' = launched t) ∧
      Get id (offers (api w')) = release <$> Get id (offers (api w))))).
  { intros e w1 t1 H1 H2 H3 H4 H5 H6 H7.
    destruct (releaseAndFail_spec l e w1 t1 id H1 H2) as (E & Hh & Hoff & P & R & F).
    simpl. rewrite P, R, F, E. repeat split; try done.
    right. repeat split; [eauto | | by rewrite Hoff, Get_Release, H4].
    exists (ClearTaskInfo t1). repeat split; done. }
  unfold bind. simpl. rewrite Hl.
  unfold hasAcceptedOffer, GetOfferId. rewrite Ho. simpl.
  destruct (negb _) eqn:Hlive.
  { apply Hfail with (t1 := t); done. }
  destruct (prepareTaskForLaunch_cases ns (Host binding) l w t Hl)
    as [[e E]|(data & err & E)]; rewrite E.
  { apply Hfail with (t1 := t); done. }
  assert (Hl1 : heap (api (set_api (update (Some l) (set_Data data)) w)) !! l
                = Some (set_Data data t)).
  { simpl. by rewrite list_lookup_alter_eq, Hl. }
  destruct err as [e|].
  { apply Hfail with (t1 := set_Data data t); done. }
  destruct (client_PostBinding ns binding) as [e|].
  { apply Hfail with (t1 := set_Data data t); done. }
  unfold launchTask. cbn [deref api set_client set_api].
  simpl in Hl1. simpl. rewrite Hl1. simpl. rewrite Ho.
  destruct (driver_LaunchTasks _ _) as [e|].
  { apply Hfail with (t1 := set_Data data t); done. }
  simpl. repeat split; try done. left. repeat split.
  - rewrite !list_lookup_alter_eq, Hl. simpl. eauto.
  - apply lookup_delete_eq.
Qed.

Lemma existsb_entryIs id t (store : list Entry) :
  (id, t) ∈ store → existsb (entryIs id t) store = true.
Proof.
  intros Hin. apply existsb_exists. exists (id, t).
  split; [by apply list_elem_of_In |].
  unfold entryIs. simpl. by rewrite !bool_decide_eq_true_2.
Qed.

(** [doSchedule] with a nil error runs the configured matching function on
    the task; when no offer matches, the error is handed back. *)
Lemma doSchedule_no_match l t k registry t' e :
  heap k !! l = Some t →
  scheduleFunc (offers k) (slaves k) t = (registry, t', Err e) →
  (doSchedule (Some l) None k).2 = Err e.
Proof.
  intros Hl Hm. unfold doSchedule. simpl. rewrite Hl, Hm. done.
Qed.

End Proofs.

(** Claim C1.  When [Bind] resolves the pod to a task that is pending and has
    an accepted offer, it ends in exactly one of two ways: it returns nil, the
    task has [launched = true] and the offer it held is gone from the offer
    registry; or it returns an error, the task's offer is released, its
    TaskInfo is cleared and the task is still pending. *)
Theorem Bind_outcomes {C : Collaborators} (binding : Binding) (w : Plugin)
    (key taskId : string) (l : loc) (t : PodTask) :
  makePodKey (binding_Namespace binding) (PodID binding) = Ok key →
  taskForPod key (api w) = Some taskId →
  getTask taskId (api w) = (Some l, statePending) →
  heap (api w) !! l = Some t →
  hasAcceptedOffer t = true →
  let w' := (Bind binding w).1 in
  let err := (Bind binding w).2 in
  let launchedOutcome :=
    err = None ∧
    (∃ t', heap (api w') !! l = Some t' ∧ launched t' = true) ∧
    Get (GetOfferId t) (offers (api w')) = None in
  let releasedOutcome :=
    is_Some err ∧
    (∃ t', heap (api w') !! l = Some t' ∧ Offer t' = None ∧
           taskInfo t' = emptyTaskInfo) ∧
    Get (GetOfferId t) (offers (api w'))
      = release <$> Get (GetOfferId t) (offers (api w)) ∧
    getTask taskId (api w') = (Some l, statePending) in
  (launchedOutcome ∨ releasedOutcome) ∧ ¬ (launchedOutcome ∧ releasedOutcome).
Proof.
  intros Hkey Hpod Htask Hl Hoffer. unfold Bind. rewrite Hkey, Hpod, Htask.
  unfold hasAcceptedOffer in Hoffer. unfold GetOfferId.
  destruct (Offer t) as [id|] eqn:Ho; [| done].
  destruct (bind_spec (binding_Namespace binding) binding l w t id Hl Ho)
    as (P & R & F & Hcases).
  cbv zeta. split.
  - destruct Hcases as [(E & Ht & Hg)|(E & (t' & Ht & Hno & Hti & _) & Hg)].
    + left. done.
    + right. repeat split; try done; [eauto |].
      rewrite <- Htask. by apply getTask_ext.
  - intros [(E & _) ([e E'] & _)]. congruence.
Qed.

Lemma Bind_outcomes_witness :
  let w' := (Bind (C := sampleCollaborators) sampleBinding scheduledPlugin).1 in
  (Bind (C := sampleCollaborators) sampleBinding scheduledPlugin).2 = None ∧
  (∃ t', heap (api w') !! 0 = Some t' ∧ launched t' = true) ∧
  Get "O1" (offers (api w')) = None.
Proof.
  destruct (Bind_outcomes (C := sampleCollaborators) sampleBinding scheduledPlugin
              "ns/foo" "task-foo" 0 placedTask)
    as [[H|H] _]; try (vm_compute; reflexivity).
  - exact H.
  - destruct H as ([e E] & _). vm_compute in E. discriminate E.
Defined.

(** Claim C2.  When no task exists under the pod's key and the historical
    store holds a pending DELETE event for the pod (the store indexes pods by
    their meta name), [Schedule] returns [noSuchPodErr] and leaves the
    scheduler, hence both task maps and the heap of tasks, as they were. *)
Theorem Schedule_aborts_on_pending_delete {C : Collaborators}
    (pod : ApiPod) (w : Plugin) (key name : string) :
  makePodKey (Namespace pod) (Name pod) = Ok key →
  taskForPod key (api w) = None →
  metaAccessor pod = Ok name →
  (name, DELETE_EVENT) ∈ podStore w →
  (Schedule pod w).2 = Err noSuchPodErr ∧
  api (Schedule pod w).1 = api w.
Proof.
  intros Hkey Hnone Hname Hdel. unfold Schedule, Poll.
  rewrite Hkey, Hnone, Hname, (existsb_entryIs _ _ _ Hdel). done.
Qed.

Lemma Schedule_aborts_on_pending_delete_witness :
  (Schedule (C := sampleCollaborators) samplePod deletedPlugin).2 = Err noSuchPodErr ∧
  api (Schedule (C := sampleCollaborators) samplePod deletedPlugin).1
    = api deletedPlugin.
Proof.
  apply (Schedule_aborts_on_pending_delete (C := sampleCollaborators)
           samplePod deletedPlugin "ns/foo" "foo").
  - reflexivity.
  - reflexivity.
  - reflexivity.
  - apply list_elem_of_here.
Defined.

(** Claim C3.  When the pod's key maps to a task: a pending task that is not
    launched goes through offer matching again ([Schedule] is [doSchedule] on
    that task with a nil error, and a failed match is what it returns); a
    pending task that is launched makes [Schedule] fail and change nothing; a
    task in any other state makes it fail with the "not pending" error. *)
Theorem Schedule_existing_task {C : Collaborators}
    (pod : ApiPod) (w : Plugin) (key taskID : string) :
  makePodKey (Namespace pod) (Name pod) = Ok key →
  taskForPod key (api w) = Some taskID →
  (∀ l t, getTask taskID (api w) = (Some l, statePending) →
          heap (api w) !! l = Some t →
     (launched t = false →
        Schedule pod w = (set_api (λ _, (doSchedule (Some l) None (api w)).1) w,
                          (doSchedule (Some l) None (api w)).2) ∧
        ∀ registry t' e,
          scheduleFunc (offers (api w)) (slaves (api w)) t = (registry, t', Err e) →
          (Schedule pod w).2 = Err e) ∧
     (launched t = true →
        Schedule pod w
          = (w, Err (Errorf "task %s has already been launched, aborting schedule"
                            [taskID])))) ∧
  (∀ task state, getTask taskID (api w) = (task, state) →
                 state ≠ statePending →
     Schedule pod w
       = (w, Err (Errorf "task %s is not pending, nothing to schedule" [taskID]))).
Proof.
  intros Hkey Hpod. split.
  - intros l t Htask Hl.
    assert (Hrerun : launched t = false →
      Schedule pod w = (set_api (λ _, (doSchedule (Some l) None (api w)).1) w,
                        (doSchedule (Some l) None (api w)).2)).
    { intros Hlaunched. unfold Schedule. rewrite Hkey, Hpod, Htask. simpl.
      rewrite Hl, Hlaunched. by destruct (doSchedule _ _ _). }
    split.
    + intros Hlaunched. split; [by apply Hrerun |].
      intros registry t' e Hm. rewrite (Hrerun Hlaunched). simpl.
      by eapply doSchedule_no_match.
    + intros Hlaunched. unfold Schedule. rewrite Hkey, Hpod, Htask. simpl.
      by rewrite Hl, Hlaunched.
  - intros task state Htask Hstate. unfold Schedule. rewrite Hkey, Hpod, Htask.
    by destruct state.
Qed.

Lemma Schedule_existing_task_witness :
  (Schedule (C := sampleCollaborators) samplePod scheduledPlugin).2
    = Err noSuitableOffersErr ∧
  Schedule (C := sampleCollaborators) samplePod launchedPlugin
    = (launchedPlugin,
       Err (Errorf "task %s has already been launched, aborting schedule"
                   ["task-foo"])) ∧
  Schedule (C := sampleCollaborators) samplePod runningPlugin
    = (runningPlugin,
       Err (Errorf "task %s is not pending, nothing to schedule" ["task-foo"])).
Proof.
  split; [| split].
  - destruct (Schedule_existing_task (C := sampleCollaborators) samplePod
                scheduledPlugin "ns/foo" "task-foo") as [H _];
      [reflexivity | reflexivity |].
    destruct (H 0 placedTask) as [H1 _]; [reflexivity | reflexivity |].
    destruct H1 as [_ H1]; [reflexivity |].
    eapply H1. vm_compute. reflexivity.
  - destruct (Schedule_existing_task (C := sampleCollaborators) samplePod
                launchedPlugin "ns/foo" "task-foo") as [H _];
      [reflexivity | reflexivity |].
    destruct (H 0 (set_launched true (set_Status_Host "host1"
                     (set_Data (Some "/api/v1beta1/boundPods/foo") placedTask))))
      as [_ H2]; [reflexivity | reflexivity |].
    apply H2. reflexivity.
  - destruct (Schedule_existing_task (C := sampleCollaborators) samplePod
                runningPlugin "ns/foo" "task-foo") as [_ H];
      [reflexivity | reflexivity |].
    apply (H (Some 0) stateRunning); [reflexivity | discriminate].
Defined.

(** Claim C4.  After a successful offer match, [doSchedule] looks the offer's
    slave up in the slave map.  If it is not there, the offer is gone from the
    offer registry afterwards, the task's TaskInfo is cleared (no offer
    attached) and an error is returned instead of a hostname.  If it is there,
    the task's TaskInfo is filled from the offer, which is now attached to the
    task, and the slave's hostname is returned. *)
Theorem doSchedule_checks_slave {C : Collaborators}
    (l : loc) (t t' : PodTask) (k : KubernetesScheduler)
    (registry : OfferRegistry) (offer : PerishableOffer) :
  heap k !! l = Some t →
  scheduleFunc (offers k) (slaves k) t = (registry, t', Ok offer) →
  let k' := (doSchedule (Some l) None k).1 in
  let r := (doSchedule (Some l) None k).2 in
  (slaves k !! offer_SlaveId (Details offer) = None →
     r = Err (Errorf "Slave disappeared (%v) while scheduling task %v"
                     [offer_SlaveId (Details offer); ID t']) ∧
     Get (offer_Id (Details offer)) (offers k') = None ∧
     ∃ t'', heap k' !! l = Some t'' ∧ taskInfo t'' = emptyTaskInfo ∧
            Offer t'' = None) ∧
  (∀ slave, slaves k !! offer_SlaveId (Details offer) = Some slave →
     r = Ok (HostName slave) ∧
     offers k' = registry ∧
     ∃ t'', heap k' !! l = Some t'' ∧
            Offer t'' = Some (offer_Id (Details offer)) ∧
            TaskId (taskInfo t'') = Some (ID t'') ∧
            SlaveId (taskInfo t'') = Some (offer_SlaveId (Details offer))).
Proof.
  intros Hl Hm. unfold doSchedule, slaveFor. simpl. rewrite Hl, Hm. simpl.
  rewrite list_lookup_alter_eq, Hl. simpl. split.
  - intros Hs. rewrite Hs. simpl. split; [done |]. split.
    + unfold Get. simpl. apply lookup_delete_eq.
    + rewrite !list_lookup_alter_eq, Hl. simpl. eauto.
  - intros slave Hs. rewrite Hs. simpl. split; [done |]. split; [done |].
    rewrite !list_lookup_alter_eq, Hl. simpl. eauto.
Qed.

Lemma doSchedule_checks_slave_witness :
  (doSchedule (C := sampleCollaborators) (Some 0) None orphanedScheduler).2
    = Err (Errorf "Slave disappeared (%v) while scheduling task %v"
                  ["S1"; "task-foo"]) ∧
  Get "O1" (offers (doSchedule (C := sampleCollaborators) (Some 0) None
                               orphanedScheduler).1) = None ∧
  (doSchedule (C := sampleCollaborators) (Some 0) None registeredScheduler).2
    = Ok "host1".
Proof.
  split; [| split].
  - destruct (doSchedule_checks_slave (C := sampleCollaborators) 0 freshTask freshTask
                orphanedScheduler
                (set_offerMap (<["O1" := acquire sampleOffer]>)
                              (offers orphanedScheduler))
                (acquire sampleOffer)) as [H _]; [reflexivity | reflexivity |].
    destruct H as (H & _); [reflexivity | exact H].
  - destruct (doSchedule_checks_slave (C := sampleCollaborators) 0 freshTask freshTask
                orphanedScheduler
                (set_offerMap (<["O1" := acquire sampleOffer]>)
                              (offers orphanedScheduler))
                (acquire sampleOffer)) as [H _]; [reflexivity | reflexivity |].
    destruct H as (_ & H & _); [reflexivity | exact H].
  - destruct (doSchedule_checks_slave (C := sampleCollaborators) 0 freshTask freshTask
                registeredScheduler
                (set_offerMap (<["O1" := acquire sampleOffer]>)
                              (offers registeredScheduler))
                (acquire sampleOffer)) as [_ H]; [reflexivity | reflexivity |].
    destruct (H (mkSlave "host1")) as (H1 & _); [reflexivity | exact H1].
Defined.

(** The claim as first stated ends with "if no task resolves, the deleter
    returns noSuchPod / noSuchTask without changing state".  That fails for a
    pod that waits in the delay queue and has no task yet: [deleteOne] returns
    [noSuchPodErr], and the pod is gone from the queue. *)
Lemma deleteOne_dequeues_unresolved_pod :
  let pod := mkPod samplePod None None None in
  taskForPod "ns/foo" (api queuedPlugin) = None ∧
  (deleteOne (C := sampleCollaborators) pod queuedPlugin).2 = Some noSuchPodErr ∧
  (deleteOne (C := sampleCollaborators) pod queuedPlugin).1 ≠ queuedPlugin.
Proof.
  split; [reflexivity |]. split; [reflexivity |].
  intros E. apply (f_equal (λ w, podQueue (qr w) !! "foo")) in E.
  vm_compute in E. discriminate E.
Qed.

(** Claim C5, amended.  [deleteOne] first removes the pod from the delay
    queue.  Then: if the resolved task is pending and not launched, its offer
    (if any) is released and its TaskInfo cleared, the task is unregistered
    from both maps, and no kill is issued; if it is pending and launched, or
    running, its [deleted] flag is set, the host of its pod status is cleared
    and [KillTask(taskId)] is requested from the driver; if no task resolves,
    [noSuchPodErr] or [noSuchTaskErr] is returned and the scheduler (task
    maps, tasks, offers, driver) is unchanged. *)
Theorem deleteOne_outcomes {C : Collaborators}
    (pod : schedulerPod) (w : Plugin) (key : string) :
  makePodKey (Namespace (pod_Pod pod)) (Name (pod_Pod pod)) = Ok key →
  let w' := (deleteOne pod w).1 in
  let err := (deleteOne pod w).2 in
  qr w' = dequeue (GetUID pod) (qr w) ∧
  (taskForPod key (api w) = None → err = Some noSuchPodErr ∧ api w' = api w) ∧
  (∀ taskId, taskForPod key (api w) = Some taskId →
     (∀ task state, getTask taskId (api w) = (task, state) →
                    state ≠ statePending → state ≠ stateRunning →
        err = Some noSuchTaskErr ∧ api w' = api w) ∧
     (∀ l t, heap (api w) !! l = Some t →
        (getTask taskId (api w) = (Some l, statePending) → launched t = false →
           err = None ∧
           podToTask (api w') = delete (podKey t) (podToTask (api w)) ∧
           pendingTasks (api w') = delete (ID t) (pendingTasks (api w)) ∧
           driver (api w') = driver (api w) ∧
           match Offer t with
           | Some id =>
               offers (api w') = Release id (offers (api w)) ∧
               heap (api w') !! l = Some (ClearTaskInfo t)
           | None =>
               offers (api w') = offers (api w) ∧ heap (api w') = heap (api w)
           end) ∧
        ((getTask taskId (api w) = (Some l, statePending) ∧ launched t = true) ∨
         getTask taskId (api w) = (Some l, stateRunning) →
           err = driver_KillTask taskId ∧
           driver (api w') = driver (api w) ++ [KillTask taskId] ∧
           (∃ t', heap (api w') !! l = Some t' ∧ deleted t' = true ∧
                  Status_Host (Pod t') = "") ∧
           podToTask (api w') = podToTask (api w) ∧
           pendingTasks (api w') = pendingTasks (api w) ∧
           runningTasks (api w') = runningTasks (api w) ∧
           offers (api w') = offers (api w)))).
Proof.
  intros Hkey. unfold deleteOne. rewrite Hkey. cbn [api set_qr]. split.
  { destruct (taskForPod key (api w)) as [taskId|]; [| done].
    destruct (getTask taskId (api w)) as [task [| | |]]; try done.
    - destruct (deref task (api w)) as [t|]; [| done].
      destruct (negb (launched t)); done.
    - destruct (deref task (api w)); done. }
  split.
  { intros Hnone. rewrite Hnone. done. }
  intros taskId Hpod. rewrite Hpod. split.
  { intros task state Htask Hp Hr. rewrite Htask. by destruct state. }
  intros l t Hl. split.
  - intros Htask Hlaunched. rewrite Htask. cbn [deref]. rewrite Hl, Hlaunched.
    unfold hasAcceptedOffer, Offer_Release. cbn [deref negb]. rewrite Hl.
    destruct (Offer t) as [id|]; simpl; [| done].
    rewrite list_lookup_alter_eq, Hl. done.
  - assert (Hkill : ∀ st, getTask taskId (api w) = (Some l, st) →
      let r := (let k := update (getTask taskId (api w)).1 (set_deleted true) (api w) in
                let k := update (getTask taskId (api w)).1 (set_Status_Host "") k in
                let '(k, err) := killTask taskId k in
                (set_api (λ _, k) (set_qr (dequeue (GetUID pod)) w), err)) in
      r.2 = driver_KillTask taskId ∧
      driver (api r.1) = driver (api w) ++ [KillTask taskId] ∧
      (∃ t', heap (api r.1) !! l = Some t' ∧ deleted t' = true ∧
             Status_Host (Pod t') = "") ∧
      podToTask (api r.1) = podToTask (api w) ∧
      pendingTasks (api r.1) = pendingTasks (api w) ∧
      runningTasks (api r.1) = runningTasks (api w) ∧
      offers (api r.1) = offers (api w)).
    { intros st Htask. rewrite Htask. simpl. repeat split; try done.
      rewrite !list_lookup_alter_eq, Hl. simpl. eauto. }
    intros [[Htask Hlaunched]|Htask].
    + specialize (Hkill _ Htask). rewrite Htask in *. cbn [deref].
      rewrite Hl, Hlaunched. exact Hkill.
    + specialize (Hkill _ Htask). rewrite Htask in *. cbn [deref].
      rewrite Hl. exact Hkill.
Qed.

Lemma deleteOne_outcomes_witness :
  let pod := mkPod samplePod None None None in
  (deleteOne (C := sampleCollaborators) pod scheduledPlugin).2 = None ∧
  podToTask (api (deleteOne (C := sampleCollaborators) pod scheduledPlugin).1)
    = delete "ns/foo" (podToTask (api scheduledPlugin)) ∧
  driver (api (deleteOne (C := sampleCollaborators) pod launchedPlugin).1)
    = driver (api launchedPlugin) ++ [KillTask "task-foo"] ∧
  api (deleteOne (C := sampleCollaborators) pod queuedPlugin).1 = api queuedPlugin.
Proof.
  intros pod.
  destruct (deleteOne_outcomes (C := sampleCollaborators) pod scheduledPlugin "ns/foo")
    as (_ & _ & H1); [reflexivity |].
  destruct (H1 "task-foo") as [_ H1']; [reflexivity |].
  destruct (H1' 0 placedTask) as [H1'' _]; [reflexivity |].
  destruct H1'' as (E1 & E2 & _); [reflexivity | reflexivity |].
  destruct (deleteOne_outcomes (C := sampleCollaborators) pod launchedPlugin "ns/foo")
    as (_ & _ & H2); [reflexivity |].
  destruct (H2 "task-foo") as [_ H2']; [reflexivity |].
  destruct (H2' 0 (set_launched true (set_Status_Host "host1"
                     (set_Data (Some "/api/v1beta1/boundPods/foo") placedTask))))
    as [_ H2'']; [reflexivity |].
  destruct H2'' as (_ & E3 & _); [left; split; reflexivity |].
  destruct (deleteOne_outcomes (C := sampleCollaborators) pod queuedPlugin "ns/foo")
    as (_ & H3 & _); [reflexivity |].
  destruct H3 as [_ E4]; [reflexivity |].
  repeat split; assumption.
Defined.

(** Claim C6.  [handleSchedulingError] drops a [noSuchPodErr] without
    requeueing.  For any other error, a pod whose task is pending and not
    launched is requeued with the current backoff delay of its key.  Exactly
    when the error is [noSuitableOffersErr], a listener is registered under
    the pod's key and its break channel is the [notify] of the requeued pod;
    for other errors no listener is registered and [notify] is nil.  The
    listener's predicate holds of an offer iff the task is then pending, not
    launched, and accepts the offer. *)
Theorem handleSchedulingError_outcomes {C : Collaborators}
    (pod : ApiPod) (schedulingErr : error) (w : Plugin) :
  handleSchedulingError pod noSuchPodErr w = w ∧
  (∀ key taskId l t,
     schedulingErr ≠ noSuchPodErr →
     makePodKey (Namespace pod) (Name pod) = Ok key →
     taskForPod key (api w) = Some taskId →
     getTask taskId (api w) = (Some l, statePending) →
     heap (api w) !! l = Some t →
     launched t = false →
     let w' := handleSchedulingError pod schedulingErr w in
     let d := currentBackoff key (gc (backoffTable w)) in
     ∃ breakChan,
       let requeued := mkPod pod None (Some d) breakChan in
       qr w' = requeue requeued (qr w) ∧
       (podQueue (qr w) !! GetUID requeued = None →
        podQueue (qr w') !! GetUID requeued = Some requeued) ∧
       (schedulingErr = noSuitableOffersErr →
          ∃ ch, breakChan = Some ch ∧
                listeners (offers (api w')) !! key = Some (mkListener taskId ch)) ∧
       (schedulingErr ≠ noSuitableOffersErr →
          breakChan = None ∧ api w' = api w)) ∧
  (∀ taskId k offer,
     offerFilter taskId k offer = true ↔
     ∃ l t, getTask taskId k = (Some l, statePending) ∧ heap k !! l = Some t ∧
            launched t = false ∧ AcceptOffer t offer = true).
Proof.
  split; [reflexivity |]. split.
  - intros key taskId l t Hne Hkey Hpod Htask Hl Hlaunched.
    assert (Hq : ∀ (p : schedulerPod) q,
      podQueue q !! GetUID p = None → podQueue (requeue p q) !! GetUID p = Some p).
    { intros p q Hq. unfold requeue, queueAdd. simpl. rewrite Hq.
      apply lookup_insert_eq. }
    unfold handleSchedulingError.
    destruct schedulingErr; try done; rewrite Hkey; cbn [api set_backoffTable];
      rewrite Hpod, Htask; cbn [deref]; rewrite Hl, Hlaunched; simpl.
    + eexists (Some _). split; [reflexivity |]. split; [apply Hq |].
      split; [| done]. intros _. eexists. split; [reflexivity |].
      apply lookup_insert_eq.
    + exists None. split; [reflexivity |]. split; [apply Hq |]. done.
    + exists None. split; [reflexivity |]. split; [apply Hq |]. done.
    + exists None. split; [reflexivity |]. split; [apply Hq |]. done.
    + exists None. split; [reflexivity |]. split; [apply Hq |]. done.
    + exists None. split; [reflexivity |]. split; [apply Hq |]. done.
  - intros taskId k offer. unfold offerFilter. split.
    + destruct (getTask taskId k) as [[l|] [| | |]]; simpl; try done.
      destruct (heap k !! l) as [t|] eqn:Hl; [| done].
      intros [Hn Ha]%andb_true_iff. apply negb_true_iff in Hn. eauto 10.
    + intros (l & t & Htask & Hl & Hn & Ha). rewrite Htask. simpl.
      by rewrite Hl, Hn, Ha.
Qed.

Lemma handleSchedulingError_outcomes_witness :
  let w' := handleSchedulingError (C := sampleCollaborators) samplePod
                                  noSuitableOffersErr scheduledPlugin in
  podQueue (qr w') !! "foo" = Some (mkPod samplePod None (Some 1%Z) (Some 0)) ∧
  listeners (offers (api w')) !! "ns/foo" = Some (mkListener "task-foo" 0).
Proof.
  destruct (handleSchedulingError_outcomes (C := sampleCollaborators) samplePod
              noSuitableOffersErr scheduledPlugin) as (_ & H & _).
  destruct (H "ns/foo" "task-foo" 0 placedTask) as (breakChan & _ & Hq & Hl & _);
    try reflexivity; [discriminate |].
  destruct Hl as (ch & -> & Hl); [reflexivity |].
  assert (ch = 0) as ->.
  { vm_compute in Hl. by injection Hl. }
  split; [| exact Hl].
  apply Hq. reflexivity.
Defined.

End SchedulerSpec.

(* ===================================================================== *)
(** ** Properties of [httpDo]                                             *)
(* ===================================================================== *)

Module MesosClientSpec.
Import MesosClient.

Section Proofs.

Context {Response error : Type}.
Variable f : Response → option error.
Variable ctxErr : error.

Local Abbreviation inv := (inv f ctxErr).

Lemma inv_init : inv init.
Proof. split; [intros e H; discriminate H | reflexivity]. Qed.

Lemma inv_step (s s' : State Response error) :
  inv s → step f ctxErr s s' → inv s'.
Proof.
  intros [Hch Hc] Hstep. destruct Hstep as [s Hd|s res Hh|s res Hh|s Hs Hd|s err Hs He|s err Hs He];
    split; simpl.
  - exact Hch.
  - destruct (caller s); [done | by destruct Hc |].
    destruct Hc as (res & Hf & [(? & ? & ?)|?]); exists res; split; auto.
  - intros e He. destruct (Hch e He) as (res' & Hf & _). congruence.
  - destruct (caller s); [done | done |].
    destruct Hc as (res' & Hf & _). congruence.
  - intros e [= <-]. eauto.
  - destruct (caller s); [done | done |].
    destruct Hc as (res' & Hf & _). congruence.
  - exact Hch.
  - done.
  - intros e H. discriminate H.
  - rewrite Hs in Hc. destruct (Hch err He) as (res & Hf & ->).
    exists res. split; [done |]. right. done.
  - intros e H. discriminate H.
  - rewrite Hs in Hc. destruct Hc as [Hcr Hd].
    destruct (Hch err He) as (res & Hf & _).
    exists res. split; [done |]. left. done.
Qed.

Lemma inv_reachable (s : State Response error) : reachable f ctxErr s → inv s.
Proof.
  unfold reachable. intros Hr. pattern s. revert s Hr. apply rtc_ind_r.
  - apply inv_init.
  - intros s1 s2 _ Hstep IH. eapply inv_step; eauto.
Qed.

End Proofs.

(** The claim as first stated ties the outcome to whether the context is
    cancelled while the request is in flight.  Go's [select] does not: when
    the context is done and the handler's result is in the channel, it takes
    either branch.  Two runs of [httpDo] with a handler that returns nil on
    status 200 show it.  In the first the context is cancelled while the
    request is in flight, yet the request is never cancelled and the
    handler's result is what is returned.  In the second the handler has
    delivered its result before the context is cancelled, yet the context's
    error is returned and the handler's result is dropped. *)
Lemma httpDo_select_takes_either_branch :
  let cancelledInFlight : State nat string :=
    mkState AtSelect InFlight None true false in
  let resultReturned : State nat string :=
    mkState (Returned (sampleHandler 200)) (Finished 200) None true false in
  let deliveredFirst : State nat string :=
    mkState AtSelect (Finished 200) (Some (sampleHandler 200)) false false in
  (reachable sampleHandler "context canceled" cancelledInFlight ∧
   rtc (step sampleHandler "context canceled") cancelledInFlight resultReturned ∧
   cancelRequested resultReturned = false ∧
   sampleHandler 200 ≠ Some "context canceled") ∧
  (reachable sampleHandler "context canceled" deliveredFirst ∧
   rtc (step sampleHandler "context canceled") deliveredFirst cancelledRun ∧
   caller cancelledRun = Returned (Some "context canceled") ∧
   Some "context canceled" ≠ sampleHandler 200).
Proof.
  cbv zeta. split; split_and!; try done.
  - unfold reachable.
    eapply rtc_l; [apply step_ctx_done; reflexivity | simpl].
    apply rtc_refl.
  - eapply rtc_l; [apply step_do_returns with (res := 200); reflexivity | simpl].
    eapply rtc_l; [apply step_handler_returns with (res := 200); reflexivity | simpl].
    eapply rtc_l; [eapply step_select_recv; reflexivity | simpl].
    apply rtc_refl.
  - unfold reachable.
    eapply rtc_l; [apply step_do_returns with (res := 200); reflexivity | simpl].
    eapply rtc_l; [apply step_handler_returns with (res := 200); reflexivity | simpl].
    apply rtc_refl.
  - eapply rtc_l; [apply step_ctx_done; reflexivity | simpl].
    eapply rtc_l; [apply step_select_done; reflexivity | simpl].
    eapply rtc_l; [apply step_wait_recv with (err := None); reflexivity | simpl].
    apply rtc_refl.
Qed.

(** Claim C9, amended.  In every execution of [httpDo]:
    - when its [select] runs while the context is done and no result of the
      handler is available, the only move it can make is to cancel the
      request and wait for the handler;
    - while it waits, its only move is to receive the result of the handler,
      which has then returned, and to return the context's error;
    - once it has returned, the response-handler goroutine has returned too,
      and the result is the context's error if the request was cancelled
      (the context being done) and the handler's own result if it was not;
    - when its [select] runs while the context is not done, the only way out
      is to return the result of the finished handler;
    - when its [select] runs while the context is done and the handler's
      result is available, both branches are open and nothing else is. *)
Theorem httpDo_cancellation {Response error : Type}
    (f : Response → option error) (ctxErr : error) (s : State Response error) :
  reachable f ctxErr s →
  (caller s = AtSelect → done s = true → ch s = None →
     ∀ s', step f ctxErr s s' → caller s' ≠ caller s →
       caller s' = WaitingForHandler ∧ cancelRequested s' = true) ∧
  (caller s = WaitingForHandler →
     ∀ s', step f ctxErr s s' → caller s' ≠ caller s →
       (∃ res, handler s = Finished res) ∧ caller s' = Returned (Some ctxErr)) ∧
  (∀ err, caller s = Returned err →
     ∃ res, handler s = Finished res ∧
            ((cancelRequested s = true ∧ done s = true ∧ err = Some ctxErr) ∨
             (cancelRequested s = false ∧ err = f res))) ∧
  (caller s = AtSelect → done s = false →
     ∀ s', step f ctxErr s s' → caller s' ≠ caller s →
       ∃ res, handler s = Finished res ∧ caller s' = Returned (f res) ∧
              cancelRequested s' = false) ∧
  (∀ e, caller s = AtSelect → done s = true → ch s = Some e →
     (∃ s', step f ctxErr s s' ∧ caller s' = WaitingForHandler ∧
            cancelRequested s' = true) ∧
     (∃ s', step f ctxErr s s' ∧ caller s' = Returned e ∧
            cancelRequested s' = false) ∧
     (∃ res, handler s = Finished res ∧ e = f res) ∧
     ∀ s', step f ctxErr s s' → caller s' ≠ caller s →
       caller s' = WaitingForHandler ∨ caller s' = Returned e).
Proof.
  intros Hr. destruct (inv_reachable f ctxErr s Hr) as [Hch Hc]. split_and!.
  - intros Hs Hd Hnone s' Hstep Hmoved.
    destruct Hstep; simpl in *; try congruence. done.
  - intros Hs s' Hstep Hmoved.
    destruct Hstep as [s _|s res _|s res _|s Hs' _|s err Hs' _|s err _ He];
      simpl in *; try congruence.
    destruct (Hch err He) as (res & Hf & _). eauto.
  - intros err Hret. rewrite Hret in Hc. exact Hc.
  - intros Hs Hd s' Hstep Hmoved. rewrite Hs in Hc.
    destruct Hstep as [s _|s res _|s res _|s _ Hd'|s err _ He|s err Hs' _];
      simpl in *; try congruence.
    destruct (Hch err He) as (res & Hf & ->). eauto.
  - intros e Hs Hd He. rewrite Hs in Hc. split_and!.
    + eexists. split; [by apply step_select_done |]. done.
    + eexists. split; [by eapply step_select_recv |]. done.
    + by apply Hch.
    + intros s' Hstep Hmoved.
      destruct Hstep as [s _|s res _|s res _|s _ _|s err _ He'|s err Hs' _];
        simpl in *; try congruence; [by left |].
      right. congruence.
Qed.

Lemma httpDo_cancellation_witness :
  ∃ res, handler cancelledRun = Finished res ∧
         ((cancelRequested cancelledRun = true ∧ done cancelledRun = true ∧
           Some "context canceled" = Some "context canceled") ∨
          (cancelRequested cancelledRun = false ∧
           Some "context canceled" = sampleHandler res)).
Proof.
  destruct (httpDo_cancellation sampleHandler "context canceled" cancelledRun)
    as (_ & _ & H & _); [| apply H; reflexivity].
  unfold reachable.
  eapply rtc_l; [apply step_ctx_done; reflexivity | simpl].
  eapply rtc_l; [apply step_select_done; reflexivity | simpl].
  eapply rtc_l; [apply step_do_returns with (res := 200); reflexivity | simpl].
  eapply rtc_l; [apply step_handler_returns with (res := 200); reflexivity | simpl].
  eapply rtc_l; [apply step_wait_recv with (err := None); reflexivity | simpl].
  apply rtc_refl.
Defined.

End MesosClientSpec.

(* ===================================================================== *)
(** ** Further properties of the executor                                 *)
(* ===================================================================== *)

Module ExecutorExtra.
Import Executor.

Section Proofs.

Variable yamlUnmarshal : string → option BoundPod.
Variable GetPodFullName : string → string → string → string.

Local Abbreviation LaunchTask := (LaunchTask yamlUnmarshal GetPodFullName).
Local Abbreviation estep := (estep yamlUnmarshal GetPodFullName).
Local Abbreviation handle := (handle yamlUnmarshal GetPodFullName).
Local Abbreviation run := (run yamlUnmarshal GetPodFullName).

(** Removing a task that is on file: what [killPodForTask] and
    [reportLostTask] share. *)
Lemma killPodForTask_known tid reason k task :
  tasks k !! tid = Some task →
  tasks (killPodForTask tid reason k) = delete tid (tasks k) ∧
  pods (killPodForTask tid reason k) = delete (podName task) (pods k) ∧
  driver (killPodForTask tid reason k)
    = driver k ++ [terminalStatus TASK_KILLED reason task] ∧
  registered (killPodForTask tid reason k) = registered k.
Proof.
  intros Ht. unfold killPodForTask. rewrite Ht. simpl.
  destruct (pods k !! podName task) eqn:Hp; simpl; repeat split; try done.
  symmetry. by apply delete_id.
Qed.

Lemma reportLostTask_known tid reason k task :
  tasks k !! tid = Some task →
  tasks (reportLostTask tid reason k) = delete tid (tasks k) ∧
  pods (reportLostTask tid reason k) = delete (podName task) (pods k) ∧
  driver (reportLostTask tid reason k)
    = driver k ++ [terminalStatus TASK_LOST reason task].
Proof.
  intros Ht. unfold reportLostTask. rewrite Ht. simpl.
  destruct (pods k !! podName task) eqn:Hp; simpl; repeat split; try done.
  symmetry. by apply delete_id.
Qed.

Lemma kill_all_fold reason (l : list (string * kuberTask)) k :
  NoDup l.*1 →
  (∀ tid task, (tid, task) ∈ l → tasks k !! tid = Some task) →
  let k' := foldl (λ k tid, killPodForTask tid reason k) k l.*1 in
  (∀ i, tasks k' !! i = if decide (i ∈ l.*1) then None else tasks k !! i) ∧
  driver k' = driver k ++ map (terminalStatus TASK_KILLED reason) l.*2.
Proof.
  revert k. induction l as [|[tid task] l IH]; intros k Hnd Hin; cbv zeta.
  { split; [done | symmetry; apply app_nil_r]. }
  rewrite !fmap_cons in *. cbn [fst snd foldl] in *.
  apply NoDup_cons in Hnd as [Hnotin Hnd].
  destruct (killPodForTask_known tid reason k task) as (Ht & _ & Hd & _).
  { apply Hin. left. }
  destruct (IH (killPodForTask tid reason k) Hnd) as [IHt IHd].
  { intros tid' task' Hin'. rewrite Ht. rewrite lookup_delete_ne.
    - apply Hin. by right.
    - intros ->. apply Hnotin. apply list_elem_of_fmap. by exists (tid', task'). }
  split.
  - intros i. rewrite IHt, Ht. destruct (decide (i = tid)) as [->|Hne].
    + rewrite (decide_True (P := tid ∈ tid :: l.*1)) by left.
      case_decide; [done | apply lookup_delete_eq].
    + rewrite lookup_delete_ne by done.
      destruct (decide (i ∈ l.*1)).
      * rewrite decide_True by (by right). done.
      * rewrite decide_False; [done |]. by intros [?|?]%elem_of_cons.
  - rewrite IHd, Hd. cbn [map]. by rewrite <- app_assoc.
Qed.

Lemma estep_podsHaveTasks k k' : estep k k' → podsHaveTasks k → podsHaveTasks k'.
Proof.
  assert (Hrem : ∀ k tid task (k1 : KubernetesExecutor),
    podsHaveTasks k → tasks k !! tid = Some task →
    tasks k1 = delete tid (tasks k) → pods k1 = delete (podName task) (pods k) →
    podsHaveTasks k1).
  { intros k0 tid task k1 Hinv Ht Ht1 Hp1 pid Hpid. rewrite Hp1 in Hpid.
    destruct (decide (pid = podName task)) as [->|Hne].
    { rewrite lookup_delete_eq in Hpid. by destruct Hpid. }
    rewrite lookup_delete_ne in Hpid by done.
    destruct (Hinv pid Hpid) as (tid0 & task0 & Ht0 & Hn0).
    exists tid0, task0. split; [| done]. rewrite Ht1, lookup_delete_ne; [done |].
    intros ->. congruence. }
  intros Hstep Hinv. destruct Hstep as [k b|k ti|k tid reason|k tid reason|k ti n d].
  - exact Hinv.
  - unfold Executor.LaunchTask.
    destruct (registered k); simpl; [| exact Hinv].
    destruct (tasks k !! GetTaskId ti) eqn:Ht; [exact Hinv |].
    destruct (yamlUnmarshal (GetData ti)) as [pod|]; [| exact Hinv].
    intros pid Hpid. simpl in *.
    destruct (decide (pid = GetPodFullName (bp_Name pod) (bp_Namespace pod)
                                           (sourcename k))) as [->|Hne].
    + eexists _, _. split; [apply lookup_insert_eq | done].
    + rewrite lookup_insert_ne in Hpid by done.
      destruct (Hinv pid Hpid) as (tid0 & task0 & Ht0 & Hn0).
      exists tid0, task0. split; [| done]. rewrite lookup_insert_ne; [done |].
      intros <-. congruence.
  - destruct (tasks k !! tid) as [task|] eqn:Ht.
    + destruct (killPodForTask_known tid reason k task Ht) as (H1 & H2 & _).
      by eapply Hrem.
    + unfold killPodForTask. by rewrite Ht.
  - destruct (tasks k !! tid) as [task|] eqn:Ht.
    + destruct (reportLostTask_known tid reason k task Ht) as (H1 & H2 & _).
      by eapply Hrem.
    + unfold reportLostTask. by rewrite Ht.
  - exact Hinv.
Qed.

Lemma reach_podsHaveTasks k k' :
  rtc estep k k' → podsHaveTasks k → podsHaveTasks k'.
Proof. induction 1; eauto using estep_podsHaveTasks. Qed.

Lemma estep_runtimeInSync k k' : estep k k' → runtimeInSync k → runtimeInSync k'.
Proof.
  assert (Hpush : ∀ k1 : KubernetesExecutor, runtimeInSync (sendPodUpdates k1)).
  { intros k1. unfold runtimeInSync, sendPodUpdates. simpl. by rewrite last_snoc. }
  assert (Hrem : ∀ (st : TaskState) tid reason task k0,
    runtimeInSync k0 →
    runtimeInSync
      (sendStatusUpdate (GetTaskId (mesosTaskInfo task)) st reason
         (match pods (set_tasks (delete tid) k0) !! podName task with
          | None => set_tasks (delete tid) k0
          | Some _ => sendPodUpdates (set_pods (delete (podName task))
                                               (set_tasks (delete tid) k0))
          end))).
  { intros st tid reason task k0 Hinv. simpl.
    destruct (pods k0 !! podName task); [| exact Hinv].
    unfold runtimeInSync. simpl. by rewrite last_snoc. }
  intros Hstep Hinv. destruct Hstep as [k b|k ti|k tid reason|k tid reason|k ti n d].
  - exact Hinv.
  - unfold Executor.LaunchTask.
    destruct (registered k); simpl; [| exact Hinv].
    destruct (tasks k !! GetTaskId ti); [exact Hinv |].
    destruct (yamlUnmarshal (GetData ti)) as [pod|]; [| exact Hinv].
    unfold runtimeInSync. simpl. by rewrite last_snoc.
  - unfold killPodForTask. destruct (tasks k !! tid); [apply Hrem |]; done.
  - unfold reportLostTask. destruct (tasks k !! tid); [apply Hrem |]; done.
  - exact Hinv.
Qed.

Lemma reach_runtimeInSync k k' :
  rtc estep k k' → runtimeInSync k → runtimeInSync k'.
Proof. induction 1; eauto using estep_runtimeInSync. Qed.

Lemma estep_taskKeysMatch k k' : estep k k' → taskKeysMatch k → taskKeysMatch k'.
Proof.
  intros Hstep Hinv. destruct Hstep as [k b|k ti|k tid reason|k tid reason|k ti n d].
  - exact Hinv.
  - unfold Executor.LaunchTask.
    destruct (registered k); simpl; [| exact Hinv].
    destruct (tasks k !! GetTaskId ti) eqn:Ht; [exact Hinv |].
    destruct (yamlUnmarshal (GetData ti)) as [pod|]; [| exact Hinv].
    intros tid task. simpl. intros [[<- <-]|[_ Hold]]%lookup_insert_Some; [done |].
    by apply Hinv.
  - destruct (tasks k !! tid) as [task|] eqn:Ht.
    + destruct (killPodForTask_known tid reason k task Ht) as (H1 & _).
      intros t0 task0. rewrite H1. intros [_ Hold]%lookup_delete_Some.
      by apply Hinv.
    + unfold killPodForTask. by rewrite Ht.
  - destruct (tasks k !! tid) as [task|] eqn:Ht.
    + destruct (reportLostTask_known tid reason k task Ht) as (H1 & _).
      intros t0 task0. rewrite H1. intros [_ Hold]%lookup_delete_Some.
      by apply Hinv.
    + unfold reportLostTask. by rewrite Ht.
  - exact Hinv.
Qed.

Lemma reach_taskKeysMatch k k' :
  rtc estep k k' → taskKeysMatch k → taskKeysMatch k'.
Proof. induction 1; eauto using estep_taskKeysMatch. Qed.

(** While task [tid] is off file, removing any task hands the driver no
    terminal status for [tid]. *)
Lemma kill_quiet tid tid' reason k :
  taskKeysMatch k → tasks k !! tid = None →
  tasks (killPodForTask tid' reason k) !! tid = None ∧
  ∃ news, driver (killPodForTask tid' reason k) = driver k ++ news ∧
          Forall (notTerminalFor tid) news.
Proof.
  intros Hkeys Hgone. destruct (tasks k !! tid') as [task|] eqn:Ht.
  - destruct (killPodForTask_known tid' reason k task Ht) as (H1 & _ & H3 & _).
    rewrite H1, H3. split.
    + apply lookup_delete_None. by right.
    + eexists. split; [reflexivity |]. apply Forall_singleton.
      intros Hid. simpl in Hid. rewrite (Hkeys _ _ Ht) in Hid. congruence.
  - unfold killPodForTask. rewrite Ht. split; [done |].
    exists []. by rewrite app_nil_r.
Qed.

Lemma lost_quiet tid tid' reason k :
  taskKeysMatch k → tasks k !! tid = None →
  tasks (reportLostTask tid' reason k) !! tid = None ∧
  ∃ news, driver (reportLostTask tid' reason k) = driver k ++ news ∧
          Forall (notTerminalFor tid) news.
Proof.
  intros Hkeys Hgone. destruct (tasks k !! tid') as [task|] eqn:Ht.
  - destruct (reportLostTask_known tid' reason k task Ht) as (H1 & _ & H3).
    rewrite H1, H3. split.
    + apply lookup_delete_None. by right.
    + eexists. split; [reflexivity |]. apply Forall_singleton.
      intros Hid. simpl in Hid. rewrite (Hkeys _ _ Ht) in Hid. congruence.
  - unfold reportLostTask. rewrite Ht. split; [done |].
    exists []. by rewrite app_nil_r.
Qed.

Lemma kill_fold_quiet tid reason tids k :
  taskKeysMatch k → tasks k !! tid = None →
  let k' := foldl (λ k t, killPodForTask t reason k) k tids in
  tasks k' !! tid = None ∧
  ∃ news, driver k' = driver k ++ news ∧ Forall (notTerminalFor tid) news.
Proof.
  revert k. induction tids as [|t tids IH]; intros k Hkeys Hgone; cbn [foldl].
  { split; [done |]. exists []. by rewrite app_nil_r. }
  destruct (kill_quiet tid t reason k Hkeys Hgone) as (Hg1 & n1 & Hd1 & Hq1).
  destruct (IH (killPodForTask t reason k)) as (Hg2 & n2 & Hd2 & Hq2).
  { eapply estep_taskKeysMatch; [| exact Hkeys]. constructor. }
  { exact Hg1. }
  split; [exact Hg2 |]. exists (n1 ++ n2). split.
  - by rewrite Hd2, Hd1, app_assoc.
  - by apply Forall_app.
Qed.

Lemma handle_quiet tid e k :
  taskKeysMatch k → tasks k !! tid = None →
  (∀ ti, e = EvLaunchTask ti → GetTaskId ti ≠ tid) →
  taskKeysMatch (handle e k) ∧
  tasks (handle e k) !! tid = None ∧
  ∃ news, driver (handle e k) = driver k ++ news ∧
          Forall (notTerminalFor tid) news.
Proof.
  intros Hkeys Hgone He. split.
  { eapply reach_taskKeysMatch; [apply ExecutorSpec.handle_reach | exact Hkeys]. }
  assert (Hsame : tasks k !! tid = None ∧
                  ∃ news, driver k = driver k ++ news ∧
                          Forall (notTerminalFor tid) news).
  { split; [done |]. exists []. by rewrite app_nil_r. }
  destruct e as [| | |ti|tid'|msg| |msg|ti name data|tid'|ti known]; simpl;
    try exact Hsame.
  - specialize (He ti eq_refl). unfold Executor.LaunchTask.
    destruct (registered k); simpl.
    + destruct (tasks k !! GetTaskId ti); [exact Hsame |].
      destruct (yamlUnmarshal (GetData ti)); simpl.
      * split; [by rewrite lookup_insert_ne |]. exists []. by rewrite app_nil_r.
      * split; [done |]. eexists. split; [reflexivity |].
        apply Forall_singleton. intros Hid. simpl in Hid. done.
    + split; [done |]. eexists. split; [reflexivity |].
      apply Forall_singleton. intros Hid. simpl in Hid. done.
  - unfold KillTask. destruct (negb (registered k)); [exact Hsame |].
    by apply kill_quiet.
  - by apply kill_fold_quiet.
  - split; [done |]. eexists. split; [reflexivity |].
    apply Forall_singleton. intros _. reflexivity.
  - by apply lost_quiet.
  - unfold checkForLostPodTask. destruct (tasks k !! GetTaskId ti);
      [destruct known |]; simpl; try exact Hsame.
    by apply lost_quiet.
Qed.

Lemma run_quiet tid es k :
  taskKeysMatch k → tasks k !! tid = None →
  (∀ ti, EvLaunchTask ti ∈ es → GetTaskId ti ≠ tid) →
  taskKeysMatch (run es k) ∧
  tasks (run es k) !! tid = None ∧
  ∃ news, driver (run es k) = driver k ++ news ∧
          Forall (notTerminalFor tid) news.
Proof.
  revert k. induction es as [|e es IH]; intros k Hkeys Hgone Hes.
  { cbn [run foldl]. split_and!; try done. exists []. by rewrite app_nil_r. }
  change (run (e :: es) k) with (run es (handle e k)).
  destruct (handle_quiet tid e k Hkeys Hgone) as (Hk1 & Hg1 & n1 & Hd1 & Hq1).
  { intros ti ->. apply Hes. left. }
  destruct (IH (handle e k) Hk1 Hg1) as (Hk2 & Hg2 & n2 & Hd2 & Hq2).
  { intros ti Hin. apply Hes. by right. }
  split_and!; try done. exists (n1 ++ n2). split.
  - by rewrite Hd2, Hd1, app_assoc.
  - by apply Forall_app.
Qed.

Lemma Shutdown_effects (k : KubernetesExecutor) :
  tasks (Shutdown k) = ∅ ∧
  driver (Shutdown k)
    = driver k ++ map (terminalStatus TASK_KILLED "Executor shutdown")
                      (map_to_list (tasks k)).*2.
Proof.
  destruct (kill_all_fold "Executor shutdown" (map_to_list (tasks k)) k)
    as [Ht Hd].
  - apply NoDup_fst_map_to_list.
  - intros tid task Hin. by apply elem_of_map_to_list.
  - split; [| exact Hd]. apply map_eq. intros i. unfold Shutdown. rewrite Ht.
    rewrite lookup_empty. case_decide as Hi; [done |].
    destruct (tasks k !! i) as [task|] eqn:Hl; [| done].
    exfalso. apply Hi. apply list_elem_of_fmap. exists (i, task).
    split; [done |]. by apply elem_of_map_to_list.
Qed.

Lemma New_podsHaveTasks ns : podsHaveTasks (New ns).
Proof. intros pid [p Hp]. simpl in Hp. by rewrite lookup_empty in Hp. Qed.

End Proofs.

(** X1.  [Shutdown] kills every task on file: afterwards the task map is
    empty, and the driver has been handed exactly one TASK_KILLED status with
    reason "Executor shutdown" per task that was on file, whatever the state
    it starts from (registered or not). *)
Theorem Shutdown_kills_every_task (k : KubernetesExecutor) :
  tasks (Shutdown k) = ∅ ∧
  driver (Shutdown k)
    = driver k ++ map (terminalStatus TASK_KILLED "Executor shutdown")
                      (map_to_list (tasks k)).*2.
Proof. apply Shutdown_effects. Qed.

(** X2.  In every state the executor can reach from [New], each bound pod
    belongs to a task on file; hence after [Shutdown] no pod is bound and no
    task is on file. *)
Theorem Shutdown_unbinds_every_pod
    (yamlUnmarshal : string → option BoundPod)
    (GetPodFullName : string → string → string → string)
    (es : list Event) (ns : string) :
  let k := run yamlUnmarshal GetPodFullName es (New ns) in
  podsHaveTasks k ∧ pods (Shutdown k) = ∅ ∧ tasks (Shutdown k) = ∅.
Proof.
  intros k.
  assert (Hk : podsHaveTasks k).
  { eapply reach_podsHaveTasks; [apply ExecutorSpec.run_reach |].
    apply New_podsHaveTasks. }
  split; [exact Hk |].
  destruct (Shutdown_effects k) as [Ht _]. split; [| exact Ht].
  assert (Hs : podsHaveTasks (Shutdown k)).
  { eapply reach_podsHaveTasks; [| exact Hk].
    apply (ExecutorSpec.killPodForTask_fold_reach yamlUnmarshal GetPodFullName). }
  apply map_eq. intros pid. rewrite lookup_empty.
  destruct (pods (Shutdown k) !! pid) as [p|] eqn:Hp; [| done].
  destruct (Hs pid) as (tid & task & Htask & _); [eauto |].
  rewrite Ht, lookup_empty in Htask. done.
Qed.

(** X3.  In every state the executor can reach from [New], the last update
    sent to the container runtime is a SET that holds exactly the pods
    currently bound (a pod is in it iff it is bound under some name, with as
    many entries as names bound), and as long as no update was sent no pod is
    bound: the bound-pods map never changes without the runtime being told. *)
Theorem runtime_follows_bookkeeping
    (yamlUnmarshal : string → option BoundPod)
    (GetPodFullName : string → string → string → string)
    (es : list Event) (ns : string) :
  let k := run yamlUnmarshal GetPodFullName es (New ns) in
  match last (updateChan k) with
  | Some u =>
      Op u = SET ∧
      (∀ p, p ∈ Pods u ↔ ∃ name, pods k !! name = Some p) ∧
      length (Pods u) = size (pods k)
  | None => pods k = ∅
  end.
Proof.
  intros k.
  assert (Hsync : runtimeInSync k).
  { eapply reach_runtimeInSync; [apply ExecutorSpec.run_reach |]. reflexivity. }
  unfold runtimeInSync in Hsync. destruct (last (updateChan k)) as [u|]; [| done].
  subst u. split_and!; [done | |].
  - intros p. apply ExecutorSpec.elem_of_allPods.
  - apply ExecutorSpec.length_allPods.
Qed.

(** X4.  Launching a new task on a registered executor and then killing it
    restores the task map and the bound-pods map; on the way the runtime is
    sent two SET updates, the first holding the new pod and every pod bound
    before, the second holding exactly the pods bound before, and the driver
    is handed one TASK_KILLED. *)
Theorem launch_then_kill_restores
    (yamlUnmarshal : string → option BoundPod)
    (GetPodFullName : string → string → string → string)
    (taskInfo : TaskInfo) (pod : BoundPod) (k : KubernetesExecutor) :
  let name := GetPodFullName (bp_Name pod) (bp_Namespace pod) (sourcename k) in
  let k' := KillTask (GetTaskId taskInfo)
                     (LaunchTask yamlUnmarshal GetPodFullName taskInfo k) in
  registered k = true →
  tasks k !! GetTaskId taskInfo = None →
  yamlUnmarshal (GetData taskInfo) = Some pod →
  pods k !! name = None →
  tasks k' = tasks k ∧
  pods k' = pods k ∧
  (∃ u1 u2,
     updateChan k' = updateChan k ++ [u1; u2] ∧
     Op u1 = SET ∧ Op u2 = SET ∧
     (∀ p, p ∈ Pods u1 ↔ p = pod ∨ ∃ n, pods k !! n = Some p) ∧
     length (Pods u1) = S (size (pods k)) ∧
     (∀ p, p ∈ Pods u2 ↔ ∃ n, pods k !! n = Some p) ∧
     length (Pods u2) = size (pods k)) ∧
  driver k' = driver k ++ [mkTaskStatus (GetTaskId taskInfo) TASK_KILLED
                                        "Task killed" None].
Proof.
  intros name k' Hreg Htask Hyaml Hpod. subst k' name.
  unfold KillTask, LaunchTask, killPodForTask. rewrite Hreg, Htask, Hyaml. simpl.
  rewrite Hreg. simpl. rewrite lookup_insert_eq. simpl.
  rewrite lookup_insert_eq. simpl.
  rewrite !delete_insert_id by done. split_and!; try done.
  eexists _, _. split; [by rewrite <- app_assoc |]. cbn [Op Pods].
  split_and!; try done.
  - intros p. rewrite ExecutorSpec.elem_of_allPods. split.
    + intros [n Hn]. apply lookup_insert_Some in Hn as [[_ <-]|[_ Hn]]; eauto.
    + intros [-> |[n Hn]].
      * eexists. apply lookup_insert_eq.
      * exists n. rewrite lookup_insert_ne; [done |]. intros <-. congruence.
  - rewrite ExecutorSpec.length_allPods. by apply map_size_insert_None.
  - intros p. apply ExecutorSpec.elem_of_allPods.
  - apply ExecutorSpec.length_allPods.
Qed.

Lemma launch_then_kill_restores_witness :
  let k := Registered (New "mesos") in
  let k' := KillTask "task-1" (LaunchTask sampleUnmarshal sampleFullName sampleTask k) in
  tasks k' = tasks k ∧ pods k' = pods k ∧
  ∃ u1 u2, updateChan k' = [u1; u2] ∧
           mkBoundPod "nginx" "default" "nginx" ∈ Pods u1 ∧ length (Pods u2) = 0.
Proof.
  intros k k'.
  destruct (launch_then_kill_restores sampleUnmarshal sampleFullName sampleTask
              (mkBoundPod "nginx" "default" "nginx") k)
    as (H1 & H2 & (u1 & u2 & Hc & _ & _ & Hu1 & _ & _ & Hu2) & _);
    [reflexivity .. |].
  split_and!; [exact H1 | exact H2 |].
  exists u1, u2. split_and!; [exact Hc | | exact Hu2].
  apply Hu1. by left.
Defined.

(** X5.  [checkForLostPodTask] returns false, i.e. monitoring goes on, exactly
    when the task is still on file and the pod is known to the runtime, and
    then nothing changes; a TASK_LOST status is handed to the driver exactly
    when the task is on file and the pod is not known, and the task is then
    off file. *)
Theorem checkForLostPodTask_decides
    (taskInfo : TaskInfo) (isKnownPod : bool) (k : KubernetesExecutor) :
  let r := checkForLostPodTask taskInfo isKnownPod k in
  let onFile := is_Some (tasks k !! GetTaskId taskInfo) in
  (r.2 = false ↔ onFile ∧ isKnownPod = true) ∧
  (r.2 = false → r.1 = k) ∧
  (driver r.1 ≠ driver k ↔ onFile ∧ isKnownPod = false) ∧
  (onFile ∧ isKnownPod = false →
     tasks r.1 !! GetTaskId taskInfo = None ∧
     ∃ task, tasks k !! GetTaskId taskInfo = Some task ∧
             driver r.1 = driver k ++ [terminalStatus TASK_LOST
                                         "Task lost: container disappeared" task]).
Proof.
  unfold checkForLostPodTask.
  destruct (tasks k !! GetTaskId taskInfo) as [task|] eqn:Ht.
  - destruct isKnownPod; cbn [fst snd].
    + split_and!; naive_solver.
    + destruct (reportLostTask_known _ "Task lost: container disappeared" k task Ht)
        as (H1 & _ & H3).
      assert (driver (reportLostTask (GetTaskId taskInfo)
                        "Task lost: container disappeared" k) ≠ driver k).
      { rewrite H3. intros E. apply (f_equal length) in E.
        rewrite length_app in E. simpl in E. lia. }
      split_and!; [naive_solver.. |].
      intros _. split; [rewrite H1; apply lookup_delete_eq | eauto].
  - cbn [fst snd]. split_and!; naive_solver.
Qed.

Lemma checkForLostPodTask_decides_witness :
  (checkForLostPodTask sampleTask true sampleExecutor).2 = false ∧
  tasks (checkForLostPodTask sampleTask false sampleExecutor).1 !! "task-1" = None.
Proof.
  destruct (checkForLostPodTask_decides sampleTask true sampleExecutor)
    as ([_ H1] & _).
  destruct (checkForLostPodTask_decides sampleTask false sampleExecutor)
    as (_ & _ & _ & H2).
  split.
  - apply H1. split; [vm_compute; eauto | reflexivity].
  - apply H2. split; [vm_compute; eauto | reflexivity].
Defined.

(** X6.  On an executor started from [New], once a task has been killed or
    reported lost, a kill, a lost report, the expiry of its launch watcher and
    a tick of its monitor change nothing and the monitor stops; and whatever
    callbacks and goroutine steps follow, as long as no LaunchTask for its id
    is among them, the task stays off file and the driver is handed no
    further TASK_KILLED, TASK_LOST or TASK_FAILED for it. *)
Theorem terminal_status_is_final
    (yamlUnmarshal : string → option BoundPod)
    (GetPodFullName : string → string → string → string)
    (before : list Event) (ns : string)
    (taskInfo : TaskInfo) (reason reason' : string) (known : bool) :
  let tid := GetTaskId taskInfo in
  let k := run yamlUnmarshal GetPodFullName before (New ns) in
  ∀ k1, k1 = killPodForTask tid reason k ∨ k1 = reportLostTask tid reason k →
    tasks k1 !! tid = None ∧
    killPodForTask tid reason' k1 = k1 ∧
    reportLostTask tid reason' k1 = k1 ∧
    watcherExpired tid k1 = k1 ∧
    checkForLostPodTask taskInfo known k1 = (k1, true) ∧
    ∀ es, (∀ ti, EvLaunchTask ti ∈ es → GetTaskId ti ≠ tid) →
      let k2 := run yamlUnmarshal GetPodFullName es k1 in
      tasks k2 !! tid = None ∧
      ∀ st, st ∈ drop (length (driver k1)) (driver k2) →
            status_TaskId st = tid → status_State st = TASK_RUNNING.
Proof.
  intros tid k k1 Hk1.
  assert (Hkeys : taskKeysMatch k).
  { apply (reach_taskKeysMatch yamlUnmarshal GetPodFullName (New ns));
      [apply ExecutorSpec.run_reach |].
    intros t task Ht. simpl in Ht. by rewrite lookup_empty in Ht. }
  assert (Hkeys1 : taskKeysMatch k1).
  { destruct Hk1 as [-> | ->];
      (apply (estep_taskKeysMatch yamlUnmarshal GetPodFullName k); [| exact Hkeys]);
      constructor. }
  assert (Hgone : tasks k1 !! tid = None).
  { destruct Hk1 as [-> | ->].
    - destruct (tasks k !! tid) as [task|] eqn:Ht.
      + destruct (killPodForTask_known tid reason k task Ht) as (-> & _).
        apply lookup_delete_eq.
      + unfold killPodForTask. by rewrite Ht.
    - destruct (tasks k !! tid) as [task|] eqn:Ht.
      + destruct (reportLostTask_known tid reason k task Ht) as (-> & _).
        apply lookup_delete_eq.
      + unfold reportLostTask. by rewrite Ht. }
  split_and!; try done.
  - unfold killPodForTask. by rewrite Hgone.
  - unfold reportLostTask. by rewrite Hgone.
  - unfold watcherExpired, reportLostTask. by rewrite Hgone.
  - unfold checkForLostPodTask. fold tid. by rewrite Hgone.
  - intros es Hes k2.
    destruct (run_quiet yamlUnmarshal GetPodFullName tid es k1 Hkeys1 Hgone Hes)
      as (_ & Hgone2 & news & Hd & Hq).
    split; [exact Hgone2 |]. intros st Hin. fold k2 in Hd.
    rewrite Hd, drop_app_length in Hin.
    rewrite Forall_forall in Hq. by apply Hq.
Qed.

Lemma terminal_status_is_final_witness :
  let k1 := killPodForTask "task-1" "Task killed" sampleExecutor in
  let k2 := run sampleUnmarshal sampleFullName
                [EvKillTask "task-1"; EvWatcherExpired "task-1"; EvShutdown] k1 in
  checkForLostPodTask sampleTask false k1 = (k1, true) ∧
  tasks k2 !! "task-1" = None ∧
  ∀ st, st ∈ drop (length (driver k1)) (driver k2) →
        status_TaskId st = "task-1" → status_State st = TASK_RUNNING.
Proof.
  intros k1 k2.
  destruct (terminal_status_is_final sampleUnmarshal sampleFullName
              [EvRegistered; EvLaunchTask sampleTask] "mesos"
              sampleTask "Task killed" "Task killed" false k1)
    as (_ & _ & _ & _ & H1 & H2).
  - left. reflexivity.
  - split; [exact H1 |]. apply H2.
    intros ti Hin. exfalso.
    repeat (apply elem_of_cons in Hin as [Hin|Hin]; [discriminate Hin |]).
    exact (not_elem_of_nil _ Hin).
Defined.

End ExecutorExtra.

(* ===================================================================== *)
(** ** Further properties of the scheduler plugin                         *)
(* ===================================================================== *)

Module SchedulerExtra.
Import Scheduler.

Section Proofs.

Context {C : Collaborators}.

Lemma releaseAndFail_bookkeeping task e w :
  bookkeeping (releaseAndFail task e w).1 = bookkeeping w ∧
  client (releaseAndFail task e w).1 = client w ∧
  driver (api (releaseAndFail task e w).1) = driver (api w) ∧
  is_Some (releaseAndFail task e w).2.
Proof.
  unfold releaseAndFail, Offer_Release.
  destruct (deref task (api w)) as [t|]; [| by eauto].
  destruct (Offer t); [| by eauto].
  destruct task as [l|]; unfold bookkeeping; simpl; rewrite ?length_alter; eauto.
Qed.

Lemma prepareTaskForLaunch_bookkeeping ns machine task w :
  bookkeeping (prepareTaskForLaunch ns machine task w).1 = bookkeeping w ∧
  client (prepareTaskForLaunch ns machine task w).1 = client w ∧
  driver (api (prepareTaskForLaunch ns machine task w).1) = driver (api w) ∧
  offers (api (prepareTaskForLaunch ns machine task w).1) = offers (api w).
Proof.
  unfold prepareTaskForLaunch.
  destruct (deref task (api w)) as [t|]; [| done].
  destruct (client_GetPod ns (Name (Pod t))); [| done].
  destruct (getServiceEnvironmentVariables ns); [| done].
  destruct (Scheme_Convert a); [| done].
  destruct (yaml_Marshal _) as [data err].
  destruct task as [l|]; unfold bookkeeping; simpl; rewrite ?length_alter; done.
Qed.

Lemma bind_bookkeeping ns binding task w :
  bookkeeping (bind ns binding task w).1 = bookkeeping w.
Proof.
  unfold bind. destruct (deref task (api w)) as [t|]; [| done].
  destruct (negb (hasAcceptedOffer t)); [done |].
  destruct (negb _); [apply releaseAndFail_bookkeeping |].
  destruct (prepareTaskForLaunch_bookkeeping ns (Host binding) task w) as (Hp & _).
  destruct (prepareTaskForLaunch ns (Host binding) task w) as [w1 [e|]];
    simpl in Hp.
  { rewrite <- Hp. apply releaseAndFail_bookkeeping. }
  destruct (client_PostBinding ns binding).
  { rewrite <- Hp.
    destruct (releaseAndFail_bookkeeping task
                (ErrorfCause "Failed to launch task %v: %v" [ID t] e)
                (set_client (λ c, c ++ [binding]) w1)) as (-> & _).
    done. }
  unfold launchTask. cbn [api set_client].
  destruct (deref task (api w1)) as [t1|].
  - destruct (Offer t1) as [id|].
    + destruct (driver_LaunchTasks id [taskInfo t1]).
      * destruct (releaseAndFail_bookkeeping task
                    (ErrorfCause "Failed to launch task %v: %v" [ID t] e)
                    (set_api (λ _, set_driver
                       (λ d, d ++ [LaunchTasks id [taskInfo t1]]) (api w1))
                       (set_client (λ c, c ++ [binding]) w1))) as (-> & _).
        rewrite <- Hp. done.
      * rewrite <- Hp. destruct task as [l|]; unfold bookkeeping; simpl;
          rewrite ?length_alter; done.
    + destruct (releaseAndFail_bookkeeping task
                  (ErrorfCause "Failed to launch task %v: %v" [ID t] nilDereference)
                  (set_api (λ _, api w1) (set_client (λ c, c ++ [binding]) w1)))
        as (-> & _).
      rewrite <- Hp. done.
  - destruct (releaseAndFail_bookkeeping task
                (ErrorfCause "Failed to launch task %v: %v" [ID t] nilDereference)
                (set_api (λ _, api w1) (set_client (λ c, c ++ [binding]) w1)))
      as (-> & _).
    rewrite <- Hp. done.
Qed.

Lemma Bind_keeps_bookkeeping_aux binding w :
  bookkeeping (Bind binding w).1 = bookkeeping w.
Proof.
  unfold Bind.
  destruct (makePodKey _ _); [| done].
  destruct (taskForPod _ _); [| done].
  destruct (getTask _ _) as [task [| | |]]; try done.
  apply bind_bookkeeping.
Qed.

(** The three ways [bind] can end, with what the control plane and the
    driver have seen in each. *)
Lemma bind_effects ns binding task w :
  let r := bind ns binding task w in
  (is_Some r.2 ∧ driver (api r.1) = driver (api w) ∧
   (client r.1 = client w ∨
    (client r.1 = client w ++ [binding] ∧
     is_Some (client_PostBinding ns binding)))) ∨
  (∃ l t id t1,
     task = Some l ∧ heap (api w) !! l = Some t ∧ Offer t = Some id ∧
     offerLive id (offers (api w)) = true ∧
     client_PostBinding ns binding = None ∧
     is_Some (driver_LaunchTasks id [taskInfo t1]) ∧
     is_Some r.2 ∧
     client r.1 = client w ++ [binding] ∧
     driver (api r.1) = driver (api w) ++ [LaunchTasks id [taskInfo t1]]) ∨
  (∃ l t id t',
     task = Some l ∧ heap (api w) !! l = Some t ∧ Offer t = Some id ∧
     offerLive id (offers (api w)) = true ∧
     client_PostBinding ns binding = None ∧
     driver_LaunchTasks id [taskInfo t'] = None ∧
     r.2 = None ∧
     client r.1 = client w ++ [binding] ∧
     heap (api r.1) !! l = Some t' ∧
     launched t' = true ∧ Status_Host (Pod t') = Host binding ∧
     Offer t' = Some id ∧
     driver (api r.1) = driver (api w) ++ [LaunchTasks id [taskInfo t']] ∧
     Get id (offers (api r.1)) = None).
Proof.
  cbv zeta. unfold bind.
  destruct task as [l|]; cbn [deref]; [| left; eauto].
  destruct (heap (api w) !! l) as [t|] eqn:Hl; [| left; eauto].
  unfold hasAcceptedOffer, GetOfferId.
  destruct (Offer t) as [id|] eqn:Ho; cbn [negb]; [| left; eauto].
  fold (offerLive id (offers (api w))).
  destruct (offerLive id (offers (api w))) eqn:Hlive; cbn [negb].
  2:{ left. destruct (releaseAndFail_bookkeeping (Some l)
        (Errorf "failed prior to launchTask due to expired offer for task %v" [ID t]) w)
        as (_ & Hc & Hd & He). eauto. }
  destruct (prepareTaskForLaunch_bookkeeping ns (Host binding) (Some l) w)
    as (_ & Hpc & Hpd & _).
  destruct (SchedulerSpec.prepareTaskForLaunch_cases ns (Host binding) l w t Hl)
    as [[e E]|(data & err & E)]; rewrite E in *; cbn [fst snd] in *.
  { left. destruct (releaseAndFail_bookkeeping (Some l)
      (ErrorfCause "Failed to launch task %v: %v" [ID t] e) w)
      as (_ & Hc & Hd & He). eauto. }
  set (w1 := set_api (update (Some l) (set_Data data)) w) in *.
  assert (Hl1 : heap (api w1) !! l = Some (set_Data data t)).
  { subst w1. simpl. by rewrite list_lookup_alter_eq, Hl. }
  destruct err as [e|].
  { left. destruct (releaseAndFail_bookkeeping (Some l)
      (ErrorfCause "Failed to launch task %v: %v" [ID t] e) w1)
      as (_ & Hc & Hd & He). rewrite Hc, Hd. subst w1. simpl. eauto. }
  destruct (client_PostBinding ns binding) as [e|] eqn:Hpost.
  { left. destruct (releaseAndFail_bookkeeping (Some l)
      (ErrorfCause "Failed to launch task %v: %v" [ID t] e)
      (set_client (λ c, c ++ [binding]) w1))
      as (_ & Hc & Hd & He). rewrite Hc, Hd. subst w1. simpl. eauto 10. }
  unfold launchTask. cbn [api set_client set_api deref]. rewrite Hl1.
  cbn [Offer set_Data set_taskInfo]. rewrite Ho.
  destruct (driver_LaunchTasks id [taskInfo (set_Data data t)]) as [e|] eqn:Hlaunch.
  - right; left. exists l, t, id, (set_Data data t).
    destruct (releaseAndFail_bookkeeping (Some l)
      (ErrorfCause "Failed to launch task %v: %v" [ID t] e)
      (set_api (λ _, set_driver
         (λ d, d ++ [LaunchTasks id [taskInfo (set_Data data t)]]) (api w1))
         (set_client (λ c, c ++ [binding]) w1)))
      as (_ & Hc & Hd & He).
    rewrite Hc, Hd. subst w1. simpl. split_and!; eauto.
  - right; right. exists l, t, id.
    exists (set_launched true (set_Status_Host (Host binding) (set_Data data t))).
    subst w1. simpl in *. split_and!; try done.
    + by rewrite !list_lookup_alter_eq, Hl.
    + apply lookup_delete_eq.
Qed.

Lemma getTask_bookkeeping taskId w w' :
  bookkeeping w' = bookkeeping w → getTask taskId (api w') = getTask taskId (api w).
Proof.
  unfold bookkeeping. intros [= H1 H2 H3 H4 _ _ _ _ _].
  by apply SchedulerSpec.getTask_ext.
Qed.

Lemma taskForPod_bookkeeping key w w' :
  bookkeeping w' = bookkeeping w → taskForPod key (api w') = taskForPod key (api w).
Proof.
  unfold bookkeeping, taskForPod. intros [= H1 _ _ _ _ _ _ _ _]. by rewrite H1.
Qed.

(** The error handler either leaves the plugin alone (up to the collection
    of old backoff entries), or requeues. *)
Lemma handleSchedulingError_cases pod schedulingErr w :
  let w' := handleSchedulingError pod schedulingErr w in
  (api w' = api w ∧ qr w' = qr w) ∨
  (∃ key taskId l t,
     schedulingErr ≠ noSuchPodErr ∧
     makePodKey (Namespace pod) (Name pod) = Ok key ∧
     taskForPod key (api w) = Some taskId ∧
     getTask taskId (api w) = (Some l, statePending) ∧
     heap (api w) !! l = Some t ∧ launched t = false ∧
     (api w' = api w ∨
      ∃ registry, api w' = set_offers (λ _, registry) (api w) ∧
                  offerMap registry = offerMap (offers (api w)))).
Proof.
  cbv zeta. unfold handleSchedulingError.
  destruct (makePodKey (Namespace pod) (Name pod)) as [key|] eqn:Hkey.
  2:{ left. by destruct schedulingErr. }
  cbn [api set_backoffTable].
  destruct (taskForPod key (api w)) as [taskId|] eqn:Hpod.
  2:{ left. by destruct schedulingErr. }
  destruct (getTask taskId (api w)) as [[l|] state] eqn:Htask.
  2:{ left. destruct schedulingErr, state; done. }
  destruct state; try (left; destruct schedulingErr; done).
  cbn [deref]. destruct (heap (api w) !! l) as [t|] eqn:Hl.
  2:{ left. by destruct schedulingErr. }
  destruct (launched t) eqn:Hla.
  { left. by destruct schedulingErr. }
  destruct schedulingErr; [left; done | right ..];
    exists key, taskId, l, t; split_and!; try done; simpl; eauto.
Qed.

Lemma entryIs_true id t (e : Entry) : entryIs id t e = true ↔ e = (id, t).
Proof.
  unfold entryIs. destruct e as [i k]. simpl.
  rewrite andb_true_iff, !bool_decide_eq_true. split; [intros [-> ->] | intros [= -> ->]]; done.
Qed.

Lemma Poll_absent id t (store : list Entry) :
  (id, t) ∉ store → Poll id t store = (false, store).
Proof.
  intros Habs. unfold Poll.
  destruct (existsb (entryIs id t) store) eqn:E; [| done].
  apply existsb_exists in E as (e & Hin & He). apply entryIs_true in He as ->.
  exfalso. apply Habs. by apply list_elem_of_In.
Qed.

Lemma consume_spec id t (store : list Entry) :
  (id, t) ∈ store →
  length store = S (length (consume id t store)) ∧ consume id t store ⊆ store.
Proof.
  induction store as [|e store IH]; intros Hin; [by apply not_elem_of_nil in Hin |].
  simpl. destruct (entryIs id t e) eqn:He.
  - split; [done |]. intros x Hx. by right.
  - apply elem_of_cons in Hin as [<-|Hin].
    + assert (entryIs id t (id, t) = true) by by apply entryIs_true. congruence.
    + destruct (IH Hin) as [Hlen Hsub]. split; [simpl; lia |].
      intros x [->|Hx]%elem_of_cons; [left | right; by apply Hsub].
Qed.

Lemma Poll_found id t (store : list Entry) store' :
  Poll id t store = (true, store') →
  (id, t) ∈ store ∧ length store = S (length store') ∧ store' ⊆ store.
Proof.
  unfold Poll. destruct (existsb (entryIs id t) store) eqn:E; [| done].
  intros [= <-]. apply existsb_exists in E as (e & Hin & He).
  apply entryIs_true in He as ->. apply list_elem_of_In in Hin.
  split; [done |]. by apply consume_spec.
Qed.

Lemma Poll_length id t (store : list Entry) :
  length (Poll id t store).2 ≤ length store ∧ (Poll id t store).2 ⊆ store.
Proof.
  destruct (Poll id t store) as [[|] store'] eqn:E.
  - apply Poll_found in E as (_ & Hlen & Hsub). simpl. split; [lia | done].
  - unfold Poll in E. destruct (existsb _ _); [done |]. injection E as <-. done.
Qed.

(** [Schedule] for a pod without task, once the task has been created: the
    task is allocated, registered and handed to [doSchedule]. *)
Lemma Schedule_new_task pod w key name t0 :
  makePodKey (Namespace pod) (Name pod) = Ok key →
  taskForPod key (api w) = None →
  metaAccessor pod = Ok name →
  (name, DELETE_EVENT) ∉ podStore w →
  newPodTask (Namespace pod) pod = Ok t0 →
  let l := length (heap (api w)) in
  let k1 := set_pendingTasks (<[ID t0 := l]>)
              (set_podToTask (<[podKey t0 := ID t0]>)
                 (set_heap (λ h, h ++ [t0]) (api w))) in
  api (Schedule pod w).1 = (doSchedule (Some l) None k1).1 ∧
  (Schedule pod w).2 = (doSchedule (Some l) None k1).2 ∧
  heap k1 !! l = Some t0.
Proof.
  intros Hkey Hnone Hname Habs Hnew. cbv zeta. unfold Schedule.
  rewrite Hkey, Hnone, Hname, (Poll_absent _ _ _ Habs).
  unfold createPodTask. rewrite Hnew. unfold registerPodTask.
  cbn [api set_podStore deref heap set_heap].
  rewrite list_lookup_middle by done.
  destruct (doSchedule _ _ _) as [k r] eqn:E. cbn [fst snd api set_api].
  simpl. by rewrite list_lookup_middle.
Qed.

End Proofs.

(** X7.  [Bind] refuses, with nothing POSTed, nothing sent to the driver and
    the plugin exactly as it was, when the pod's key maps to no task
    ([noSuchPodErr]), when the task it maps to is not pending
    ([noSuchPodErr]), and when the pending task has no accepted offer. *)
Theorem Bind_refuses_unbindable {C : Collaborators}
    (binding : Binding) (w : Plugin) (key : string) :
  makePodKey (binding_Namespace binding) (PodID binding) = Ok key →
  (taskForPod key (api w) = None → Bind binding w = (w, Some noSuchPodErr)) ∧
  (∀ taskId task state,
     taskForPod key (api w) = Some taskId →
     getTask taskId (api w) = (task, state) →
     (state ≠ statePending → Bind binding w = (w, Some noSuchPodErr)) ∧
     (∀ t, state = statePending → deref task (api w) = Some t →
           hasAcceptedOffer t = false →
           Bind binding w
             = (w, Some (Errorf "task has not accepted a valid offer %v" [ID t])))).
Proof.
  intros Hkey. unfold Bind. rewrite Hkey. split.
  - intros ->. done.
  - intros taskId task state -> ->. split.
    + by destruct state.
    + intros t -> Ht Hno. unfold bind. by rewrite Ht, Hno.
Qed.

Lemma Bind_refuses_unbindable_witness :
  Bind (C := sampleCollaborators) sampleBinding samplePlugin
    = (samplePlugin, Some noSuchPodErr) ∧
  Bind (C := sampleCollaborators) sampleBinding runningPlugin
    = (runningPlugin, Some noSuchPodErr).
Proof.
  destruct (Bind_refuses_unbindable (C := sampleCollaborators) sampleBinding
              samplePlugin "ns/foo") as [H1 _]; [reflexivity |].
  destruct (Bind_refuses_unbindable (C := sampleCollaborators) sampleBinding
              runningPlugin "ns/foo") as [_ H2]; [reflexivity |].
  destruct (H2 "task-foo" (Some 0) stateRunning) as [H2' _];
    [reflexivity | reflexivity |].
  split; [apply H1; reflexivity | apply H2'; discriminate].
Defined.

(** X8.  Whatever its outcome, [Bind] never registers, unregisters or moves a
    task: the pod-to-task map, the pending and running task maps, the finished
    list, the slave map and the number of tasks are as before, and so are the
    pod store, the queuer and the backoff table. *)
Theorem Bind_keeps_bookkeeping {C : Collaborators} (binding : Binding) (w : Plugin) :
  bookkeeping (Bind binding w).1 = bookkeeping w.
Proof. apply Bind_keeps_bookkeeping_aux. Qed.

(** X9.  [Bind] returns nil only after the whole launch went through: the
    pod resolved to a pending task holding a live offer, the binding was
    POSTed, the driver was asked once to launch the task's TaskInfo on that
    offer, the offer is gone from the registry, and the task is marked
    launched with the binding's host stamped on its pod (the offer and the
    TaskInfo stay attached to the task). *)
Theorem Bind_success_effects {C : Collaborators} (binding : Binding) (w : Plugin) :
  (Bind binding w).2 = None →
  let w' := (Bind binding w).1 in
  ∃ key taskId l t id t',
    makePodKey (binding_Namespace binding) (PodID binding) = Ok key ∧
    taskForPod key (api w) = Some taskId ∧
    getTask taskId (api w) = (Some l, statePending) ∧
    heap (api w) !! l = Some t ∧ Offer t = Some id ∧
    offerLive id (offers (api w)) = true ∧
    client w' = client w ++ [binding] ∧
    driver (api w') = driver (api w) ++ [LaunchTasks id [taskInfo t']] ∧
    Get id (offers (api w')) = None ∧
    heap (api w') !! l = Some t' ∧
    launched t' = true ∧ Status_Host (Pod t') = Host binding ∧ Offer t' = Some id.
Proof.
  unfold Bind.
  destruct (makePodKey _ _) as [key|] eqn:Hkey; [| done].
  destruct (taskForPod _ _) as [taskId|] eqn:Hpod; [| done].
  destruct (getTask _ _) as [task [| | |]] eqn:Htask; try done.
  intros Hnil.
  destruct (bind_effects (binding_Namespace binding) binding task w)
    as [([e E] & _)|[H|H]].
  - congruence.
  - destruct H as (l & t & id & t1 & _ & _ & _ & _ & _ & _ & [e E] & _). congruence.
  - destruct H as (l & t & id & t' & -> & Hl & Ho & Hlive & _ & _ & _ & Hc & Hl' &
                   Hla & Hh & Ho' & Hd & Hg).
    exists key, taskId, l, t, id, t'. split_and!; done.
Qed.

Lemma Bind_success_effects_witness :
  client (Bind (C := sampleCollaborators) sampleBinding scheduledPlugin).1
    = [sampleBinding] ∧
  ∃ taskInfo,
    driver (api (Bind (C := sampleCollaborators) sampleBinding scheduledPlugin).1)
      = [LaunchTasks "O1" [taskInfo]].
Proof.
  destruct (Bind_success_effects (C := sampleCollaborators) sampleBinding
              scheduledPlugin)
    as (key & taskId & l & t & id & t' & _ & _ & _ & Hl & Ho & _ & Hc & Hd & _);
    [reflexivity |].
  split; [exact Hc |].
  assert (l = 0 ∨ l ≠ 0) as [-> | Hne] by (destruct l; [left | right]; done).
  - vm_compute in Hl. injection Hl as <-. vm_compute in Ho. injection Ho as <-.
    exists (taskInfo t'). exact Hd.
  - destruct l; [done |]. vm_compute in Hl. discriminate Hl.
Defined.

(** X10.  [Bind] asks the driver to launch at most once, and only after the
    offer was found live and the binding was POSTed successfully: in every
    other case the driver sees nothing, and the binding was POSTed at most
    once. *)
Theorem Bind_launches_only_after_post {C : Collaborators}
    (binding : Binding) (w : Plugin) :
  let w' := (Bind binding w).1 in
  (driver (api w') = driver (api w) ∧
   (client w' = client w ∨ client w' = client w ++ [binding])) ∨
  (∃ id taskInfo,
     driver (api w') = driver (api w) ++ [LaunchTasks id [taskInfo]] ∧
     client w' = client w ++ [binding] ∧
     client_PostBinding (binding_Namespace binding) binding = None ∧
     offerLive id (offers (api w)) = true).
Proof.
  cbv zeta. unfold Bind.
  destruct (makePodKey _ _) as [key|]; [| left; eauto].
  destruct (taskForPod _ _) as [taskId|]; [| left; eauto].
  destruct (getTask _ _) as [task [| | |]]; try (left; by eauto).
  destruct (bind_effects (binding_Namespace binding) binding task w)
    as [(_ & Hd & [Hc|[Hc _]])|[H|H]].
  - left; eauto.
  - left; eauto.
  - destruct H as (l & t & id & t1 & _ & _ & _ & Hlive & Hpost & _ & _ & Hc & Hd).
    right. eauto 10.
  - destruct H as (l & t & id & t' & _ & _ & _ & Hlive & Hpost & _ & _ & Hc & _ &
                   _ & _ & _ & Hd & _).
    right. eauto 10.
Qed.

(** X11.  Registering a task and unregistering it again gives back the
    scheduler as it was, provided neither the task's pod key nor its id was
    taken before. *)
Theorem unregister_undoes_register
    (l : loc) (t : PodTask) (k : KubernetesScheduler) :
  heap k !! l = Some t →
  podToTask k !! podKey t = None →
  pendingTasks k !! ID t = None →
  (registerPodTask (Some l) None k).2 = (Some l, None) ∧
  taskForPod (podKey t) (registerPodTask (Some l) None k).1 = Some (ID t) ∧
  getTask (ID t) (registerPodTask (Some l) None k).1 = (Some l, statePending) ∧
  unregisterPodTask t (registerPodTask (Some l) None k).1 = k.
Proof.
  intros Hl Hp Hq. unfold registerPodTask, unregisterPodTask, taskForPod, getTask.
  cbn [deref]. rewrite Hl. simpl. rewrite !lookup_insert_eq.
  split_and!; try done.
  destruct k. unfold set_pendingTasks, set_podToTask. simpl in *.
  by rewrite !delete_insert_id.
Qed.

Lemma unregister_undoes_register_witness :
  let k := mkScheduler [freshTask] ∅ ∅ ∅ [] ∅ (mkRegistry ∅ ∅ 0 0) [] in
  unregisterPodTask freshTask
    (registerPodTask (Some 0) None k).1 = k.
Proof.
  intros k.
  apply (unregister_undoes_register 0 freshTask k); reflexivity.
Defined.

(** X12.  A pod deleted between [Schedule] and [Bind]: once [deleteOne] has
    dealt with a pending task that was not launched and is registered under
    the pod's key, [Bind] for that pod fails with [noSuchPodErr] and changes
    nothing, and so does a second [deleteOne]. *)
Theorem deleted_pod_is_not_bound {C : Collaborators}
    (pod : schedulerPod) (binding : Binding) (w : Plugin)
    (key taskId : string) (l : loc) (t : PodTask) :
  makePodKey (Namespace (pod_Pod pod)) (Name (pod_Pod pod)) = Ok key →
  makePodKey (binding_Namespace binding) (PodID binding) = Ok key →
  taskForPod key (api w) = Some taskId →
  getTask taskId (api w) = (Some l, statePending) →
  heap (api w) !! l = Some t →
  launched t = false →
  podKey t = key →
  let w' := (deleteOne pod w).1 in
  (deleteOne pod w).2 = None ∧
  Bind binding w' = (w', Some noSuchPodErr) ∧
  (deleteOne pod w').2 = Some noSuchPodErr ∧
  api (deleteOne pod w').1 = api w'.
Proof.
  intros Hkey Hbkey Hpod Htask Hl Hla Hpk.
  assert (Hgone : taskForPod key (api (deleteOne pod w).1) = None ∧
                  (deleteOne pod w).2 = None).
  { unfold deleteOne. rewrite Hkey. cbn [api set_qr]. rewrite Hpod, Htask.
    cbn [deref]. rewrite Hl, Hla. cbn [negb fst snd api set_api].
    split; [| done]. unfold taskForPod, unregisterPodTask. simpl.
    rewrite Hpk. apply lookup_delete_eq. }
  destruct Hgone as [Hgone Hnil]. cbv zeta. split; [exact Hnil |].
  split; [| split].
  - unfold Bind. by rewrite Hbkey, Hgone.
  - unfold deleteOne at 1. rewrite Hkey. cbn [api set_qr]. by rewrite Hgone.
  - unfold deleteOne at 1. rewrite Hkey. cbn [api set_qr]. by rewrite Hgone.
Qed.

Lemma deleted_pod_is_not_bound_witness :
  let pod := mkPod samplePod None None None in
  let w' := (deleteOne (C := sampleCollaborators) pod scheduledPlugin).1 in
  Bind (C := sampleCollaborators) sampleBinding w' = (w', Some noSuchPodErr).
Proof.
  intros pod w'.
  destruct (deleted_pod_is_not_bound (C := sampleCollaborators) pod sampleBinding
              scheduledPlugin "ns/foo" "task-foo" 0 placedTask)
    as (_ & H & _); [reflexivity .. |].
  exact H.
Defined.

(** X13.  The error handler never touches a task: whatever the pod and the
    error, the tasks, the task registries, the slave map, the offers held by
    the registry, the calls made to the driver, the bindings POSTed and the
    pod store are as before.  All it may change is the listener set, the
    backoff table and the delay queue. *)
Theorem handleSchedulingError_leaves_tasks {C : Collaborators}
    (pod : ApiPod) (schedulingErr : error) (w : Plugin) :
  let w' := handleSchedulingError pod schedulingErr w in
  heap (api w') = heap (api w) ∧
  podToTask (api w') = podToTask (api w) ∧
  pendingTasks (api w') = pendingTasks (api w) ∧
  runningTasks (api w') = runningTasks (api w) ∧
  finishedTasks (api w') = finishedTasks (api w) ∧
  slaves (api w') = slaves (api w) ∧
  offerMap (offers (api w')) = offerMap (offers (api w)) ∧
  driver (api w') = driver (api w) ∧
  client w' = client w ∧
  podStore w' = podStore w.
Proof.
  cbv zeta.
  assert (Hrest : client (handleSchedulingError pod schedulingErr w) = client w ∧
                  podStore (handleSchedulingError pod schedulingErr w) = podStore w).
  { unfold handleSchedulingError.
    destruct (makePodKey _ _) as [key|]; [| by destruct schedulingErr].
    cbn [api set_backoffTable].
    destruct (taskForPod key (api w)); [| by destruct schedulingErr].
    destruct (getTask _ _) as [task [| | |]]; try by destruct schedulingErr.
    destruct (deref task (api w)) as [t|]; [| by destruct schedulingErr].
    destruct (launched t); by destruct schedulingErr. }
  destruct Hrest as [Hc Hs].
  destruct (handleSchedulingError_cases pod schedulingErr w)
    as [[-> _]|(key & taskId & l & t & _ & _ & _ & _ & _ & _ &
                [-> |(registry & -> & Hmap)])];
    split_and!; done.
Qed.

(** X14.  The error handler requeues a pod, or registers a listener, only
    for an error other than [noSuchPodErr] and a pod whose key resolves to a
    pending task that is not launched; for a pod without task, with a task
    that is launched, running or finished, the delay queue and the scheduler
    stay as they are. *)
Theorem handleSchedulingError_requeues_only_pending {C : Collaborators}
    (pod : ApiPod) (schedulingErr : error) (w : Plugin) :
  let w' := handleSchedulingError pod schedulingErr w in
  qr w' ≠ qr w ∨ api w' ≠ api w →
  ∃ key taskId l t,
    schedulingErr ≠ noSuchPodErr ∧
    makePodKey (Namespace pod) (Name pod) = Ok key ∧
    taskForPod key (api w) = Some taskId ∧
    getTask taskId (api w) = (Some l, statePending) ∧
    heap (api w) !! l = Some t ∧ launched t = false.
Proof.
  cbv zeta. intros Hchanged.
  destruct (handleSchedulingError_cases pod schedulingErr w)
    as [[Ha Hq]|(key & taskId & l & t & H1 & H2 & H3 & H4 & H5 & H6 & _)].
  - destruct Hchanged; congruence.
  - exists key, taskId, l, t. done.
Qed.

Lemma handleSchedulingError_requeues_only_pending_witness :
  ∃ key taskId l t,
    noSuitableOffersErr ≠ noSuchPodErr ∧
    makePodKey (Collaborators := sampleCollaborators)
               (Namespace samplePod) (Name samplePod) = Ok key ∧
    taskForPod key (api scheduledPlugin) = Some taskId ∧
    getTask taskId (api scheduledPlugin) = (Some l, statePending) ∧
    heap (api scheduledPlugin) !! l = Some t ∧ launched t = false.
Proof.
  apply (handleSchedulingError_requeues_only_pending (C := sampleCollaborators)
           samplePod noSuitableOffersErr scheduledPlugin).
  left. intros E. apply (f_equal unscheduledCond) in E. vm_compute in E.
  discriminate E.
Defined.

(** X15.  A launched pod is not scheduled again: after [Bind] has returned
    nil for a pod, [Schedule] for that pod fails with the "already launched"
    error and changes nothing, the error handler does not requeue it, and a
    listener registered for its task accepts no offer. *)
Theorem launched_pod_is_left_alone {C : Collaborators}
    (binding : Binding) (pod : ApiPod) (w : Plugin) (key taskId : string) :
  makePodKey (binding_Namespace binding) (PodID binding) = Ok key →
  makePodKey (Namespace pod) (Name pod) = Ok key →
  taskForPod key (api w) = Some taskId →
  (Bind binding w).2 = None →
  let w' := (Bind binding w).1 in
  Schedule pod w'
    = (w', Err (Errorf "task %s has already been launched, aborting schedule"
                       [taskId])) ∧
  (∀ e, qr (handleSchedulingError pod e w') = qr w' ∧
        api (handleSchedulingError pod e w') = api w') ∧
  (∀ offer, offerFilter taskId (api w') offer = false).
Proof.
  intros Hbkey Hkey Hpod Hnil. cbv zeta.
  pose proof (Bind_keeps_bookkeeping_aux binding w) as Hbk.
  assert (Hfacts : ∃ l t', getTask taskId (api (Bind binding w).1)
                             = (Some l, statePending) ∧
                           heap (api (Bind binding w).1) !! l = Some t' ∧
                           launched t' = true).
  { revert Hnil Hbk. unfold Bind. rewrite Hbkey, Hpod.
    destruct (getTask taskId (api w)) as [task [| | |]] eqn:Htask; try done.
    intros Hnil Hbk.
    destruct (bind_effects (binding_Namespace binding) binding task w)
      as [([e E] & _)|[H|H]].
    - congruence.
    - destruct H as (l & t & id & t1 & _ & _ & _ & _ & _ & _ & [e E] & _).
      congruence.
    - destruct H as (l & t & id & t' & -> & _ & _ & _ & _ & _ & _ & _ & Hl' &
                     Hla & _).
      exists l, t'. split_and!; try done.
      rewrite <- Htask. by apply getTask_bookkeeping. }
  destruct Hfacts as (l & t' & Htask' & Hl' & Hla).
  assert (Hpod' : taskForPod key (api (Bind binding w).1) = Some taskId).
  { rewrite <- Hpod. by apply taskForPod_bookkeeping. }
  split_and!.
  - unfold Schedule. rewrite Hkey, Hpod', Htask'. cbn [deref]. by rewrite Hl', Hla.
  - intros e.
    destruct (handleSchedulingError_cases pod e (Bind binding w).1)
      as [[Ha Hq]|(key' & taskId' & l0 & t0 & _ & H2 & H3 & H4 & H5 & H6 & _)];
      [done |].
    rewrite Hkey in H2. injection H2 as <-. rewrite Hpod' in H3.
    injection H3 as <-. rewrite Htask' in H4. injection H4 as <-. congruence.
  - intros offer. unfold offerFilter. rewrite Htask'. cbn [deref].
    by rewrite Hl', Hla.
Qed.

Lemma launched_pod_is_left_alone_witness :
  Schedule (C := sampleCollaborators) samplePod launchedPlugin
    = (launchedPlugin,
       Err (Errorf "task %s has already been launched, aborting schedule"
                   ["task-foo"])).
Proof.
  destruct (launched_pod_is_left_alone (C := sampleCollaborators) sampleBinding
              samplePod scheduledPlugin "ns/foo" "task-foo") as (H & _);
    [reflexivity .. |].
  exact H.
Defined.

(** X16.  When [Schedule] returns a host for a pod that had no task, the
    pod is ready for [Bind]: a new task has been allocated and registered
    under its own pod key and id, it is pending, it holds the matched offer
    with its TaskInfo filled, and the host returned is that of a slave the
    scheduler knows. *)
Theorem Schedule_new_pod_is_bindable {C : Collaborators}
    (pod : ApiPod) (w : Plugin) (key host : string) :
  makePodKey (Namespace pod) (Name pod) = Ok key →
  taskForPod key (api w) = None →
  (Schedule pod w).2 = Ok host →
  let w' := (Schedule pod w).1 in
  let l := length (heap (api w)) in
  ∃ t0 t' slave,
    newPodTask (Namespace pod) pod = Ok t0 ∧
    taskForPod (podKey t0) (api w') = Some (ID t0) ∧
    getTask (ID t0) (api w') = (Some l, statePending) ∧
    heap (api w') !! l = Some t' ∧
    hasAcceptedOffer t' = true ∧
    TaskId (taskInfo t') = Some (ID t') ∧
    (∃ sid, SlaveId (taskInfo t') = Some sid ∧
            slaves (api w') !! sid = Some slave) ∧
    host = HostName slave.
Proof.
  intros Hkey Hnone. cbv zeta. unfold Schedule. rewrite Hkey, Hnone.
  destruct (metaAccessor pod) as [name|]; [| done].
  destruct (Poll name DELETE_EVENT (podStore w)) as [[|] store]; [done |].
  unfold createPodTask.
  destruct (newPodTask (Namespace pod) pod) as [t0|e]; [| done].
  unfold registerPodTask. cbn [api set_podStore deref heap set_heap].
  rewrite list_lookup_middle by done.
  unfold doSchedule, slaveFor. cbn [deref heap set_heap set_podToTask set_pendingTasks].
  rewrite list_lookup_middle by done.
  cbn [offers slaves set_heap set_podToTask set_pendingTasks].
  destruct (scheduleFunc (offers (api w)) (slaves (api w)) t0)
    as [[registry t'] [offer|e]]; [| done].
  simpl. rewrite list_lookup_alter_eq, list_lookup_middle by done. simpl.
  destruct (slaves (api w) !! offer_SlaveId (Details offer)) as [slave|] eqn:Hs;
    [| done].
  simpl. intros [= <-].
  exists t0, (FillTaskInfo offer t'), slave.
  unfold taskForPod, getTask. simpl. rewrite !lookup_insert_eq.
  rewrite !list_lookup_alter_eq, list_lookup_middle by done. simpl.
  split_and!; eauto.
Qed.

Lemma Schedule_new_pod_is_bindable_witness :
  getTask "task-foo" (api scheduledPlugin) = (Some 0, statePending) ∧
  ∃ t', heap (api scheduledPlugin) !! 0 = Some t' ∧ hasAcceptedOffer t' = true.
Proof.
  destruct (Schedule_new_pod_is_bindable (C := sampleCollaborators) samplePod
              samplePlugin "ns/foo" "host1")
    as (t0 & t' & slave & Hnew & _ & Htask & Hl & Ho & _); [reflexivity .. |].
  vm_compute in Hnew. injection Hnew as <-. split; [exact Htask |].
  exists t'. split; [exact Hl | exact Ho].
Defined.

(** X17.  A first scheduling attempt that fails: if the task cannot be
    created, the error is returned and nothing is registered; if the task is
    created but no offer matches, the error of the matching function is
    returned and the task stays registered and pending, so that the error
    handler and the next [Schedule] find it. *)
Theorem Schedule_new_pod_failures {C : Collaborators}
    (pod : ApiPod) (w : Plugin) (key name : string) :
  makePodKey (Namespace pod) (Name pod) = Ok key →
  taskForPod key (api w) = None →
  metaAccessor pod = Ok name →
  (name, DELETE_EVENT) ∉ podStore w →
  let w' := (Schedule pod w).1 in
  let l := length (heap (api w)) in
  (∀ e, newPodTask (Namespace pod) pod = Err e →
        (Schedule pod w).2 = Err e ∧ api w' = api w) ∧
  (∀ t0 registry t' e,
     newPodTask (Namespace pod) pod = Ok t0 →
     scheduleFunc (offers (api w)) (slaves (api w)) t0 = (registry, t', Err e) →
     (Schedule pod w).2 = Err e ∧
     taskForPod (podKey t0) (api w') = Some (ID t0) ∧
     getTask (ID t0) (api w') = (Some l, statePending) ∧
     heap (api w') !! l = Some t' ∧
     driver (api w') = driver (api w)).
Proof.
  intros Hkey Hnone Hname Habs. cbv zeta. split.
  - intros e Hnew. unfold Schedule.
    rewrite Hkey, Hnone, Hname, (Poll_absent _ _ _ Habs).
    unfold createPodTask. rewrite Hnew. simpl. split; [done |]. by destruct w.
  - intros t0 registry t' e Hnew Hm.
    destruct (Schedule_new_task pod w key name t0 Hkey Hnone Hname Habs Hnew)
      as (Ha & Hr & Hl).
    rewrite Ha, Hr. unfold doSchedule. cbn [deref]. rewrite Hl.
    cbn [offers slaves set_pendingTasks set_podToTask set_heap]. rewrite Hm.
    unfold taskForPod, getTask. simpl. rewrite !lookup_insert_eq.
    rewrite list_lookup_alter_eq. simpl in Hl. rewrite Hl. done.
Qed.

Lemma Schedule_new_pod_failures_witness :
  let w := set_api (λ k, set_offers (Invalidate "O1") k) samplePlugin in
  (Schedule (C := sampleCollaborators) samplePod w).2 = Err noSuitableOffersErr ∧
  getTask "task-foo" (api (Schedule (C := sampleCollaborators) samplePod w).1)
    = (Some 0, statePending).
Proof.
  intros w.
  destruct (Schedule_new_pod_failures (C := sampleCollaborators) samplePod w
              "ns/foo" "foo") as [_ H]; [reflexivity | reflexivity | reflexivity | |].
  { intros Hin. by apply not_elem_of_nil in Hin. }
  destruct (H freshTask (offers (api w)) freshTask noSuitableOffersErr)
    as (H1 & _ & H3 & _); [reflexivity | reflexivity |].
  split; [exact H1 | exact H3].
Defined.

(** X18.  [yield] only hands out a pod that came off the delay queue, is not
    bound to a host, and whose POP event it has just consumed from the pod
    store; timeouts, pods in transition (no POP event) and pods already bound
    are skipped. *)
Theorem yield_hands_out_unbound_pods {C : Collaborators}
    (awaited : list (option schedulerPod)) (store store' : list Entry)
    (pod : ApiPod) :
  yield awaited store = (Some pod, store') →
  Status_Host pod = "" ∧
  (∃ kpod, Some kpod ∈ awaited ∧ pod_Pod kpod = pod) ∧
  (∃ name, metaAccessor pod = Ok name ∧ (name, POP_EVENT) ∈ store) ∧
  length store' < length store.
Proof.
  revert store. induction awaited as [|[kpod|] awaited IH]; intros store; simpl.
  - done.
  - assert (Hskip : ∀ s, s ⊆ store → length s ≤ length store →
      yield awaited s = (Some pod, store') →
      Status_Host pod = "" ∧
      (∃ kpod0, Some kpod0 ∈ Some kpod :: awaited ∧ pod_Pod kpod0 = pod) ∧
      (∃ name, metaAccessor pod = Ok name ∧ (name, POP_EVENT) ∈ store) ∧
      length store' < length store).
    { intros s Hsub Hlen Hy.
      destruct (IH s Hy) as (Hh & (k0 & Hk0 & Hp0) & (name & Hn & Hin) & Hl).
      split_and!; [done | | | lia].
      - exists k0. split; [by right | done].
      - exists name. split; [done | by apply Hsub]. }
    destruct (metaAccessor (pod_Pod kpod)) as [name|] eqn:Hname.
    2:{ by apply Hskip. }
    destruct (Poll name POP_EVENT store) as [popped s] eqn:Hpoll.
    pose proof (Poll_length name POP_EVENT store) as [Hlen Hsub].
    rewrite Hpoll in Hlen, Hsub. simpl in Hlen, Hsub.
    destruct popped; cbn [negb]; [| by apply Hskip].
    case_bool_decide as Hhost; cbn [negb]; [| by apply Hskip].
    intros [= <- <-]. apply Poll_found in Hpoll as (Hin & Hl & _).
    split_and!; [done | | | lia].
    + exists kpod. split; [left | done].
    + eauto.
  - intros Hy. destruct (IH store Hy) as (Hh & (k0 & Hk0 & Hp0) & Hn & Hl).
    split_and!; try done. exists k0. split; [by right | done].
Qed.

Lemma yield_hands_out_unbound_pods_witness :
  Status_Host samplePod = "" ∧
  length ([] : list Entry) < length [("foo", POP_EVENT)].
Proof.
  destruct (yield_hands_out_unbound_pods (C := sampleCollaborators)
              [None; Some (mkPod samplePod None None None)]
              [("foo", POP_EVENT)] [] samplePod) as (H1 & _ & _ & H2);
    [reflexivity |].
  split; [exact H1 | exact H2].
Defined.

End SchedulerExtra.

(* ===================================================================== *)
(** ** Further properties of the mesos client                             *)
(* ===================================================================== *)

Module MesosClientExtra.
Import MesosClient.
Import Stdlib.Strings.Ascii.

Section HttpDo.

Context {Response error : Type}.
Variable f : Response → option error.
Variable ctxErr : error.

Lemma resultKept_step (s s' : State Response error) :
  inv f ctxErr s → resultKept f s → step f ctxErr s s' → resultKept f s'.
Proof.
  intros [Hch _] Hk Hstep. unfold resultKept in *.
  destruct Hstep as [s Hd|s res Hh|s res Hh|s Hs Hd|s err Hs He|s err Hs He];
    simpl; try done.
  - destruct (caller s); [| | done]; intros res' Hf; congruence.
  - destruct (caller s); [| | done]; intros res' [= <-]; done.
  - rewrite Hs in Hk. exact Hk.
Qed.

Lemma resultKept_reachable (s : State Response error) :
  reachable f ctxErr s → resultKept f s.
Proof.
  intros Hr.
  assert (inv f ctxErr s ∧ resultKept f s) as [_ H]; [| exact H].
  unfold reachable in Hr. pattern s. revert s Hr. apply rtc_ind_r.
  - split; [apply MesosClientSpec.inv_init | intros res H; discriminate H].
  - intros s1 s2 _ Hstep [Hi Hk]. split.
    + eapply MesosClientSpec.inv_step; eauto.
    + eapply resultKept_step; eauto.
Qed.

End HttpDo.

Lemma cut_Some sep s before after :
  cut sep s = Some (before, after) →
  s = before +:+ String sep after ∧ contains sep before = false.
Proof.
  revert before. induction s as [|c s IH]; intros before; simpl; [done |].
  destruct (Ascii.eqb_spec c sep) as [->|Hne].
  - intros [= <- <-]. done.
  - destruct (cut sep s) as [[b a]|]; [| done].
    intros [= <- <-]. destruct (IH b eq_refl) as [-> Hc].
    simpl. split; [done |]. destruct (Ascii.eqb_spec c sep); done.
Qed.

Lemma cut_append sep before after :
  contains sep before = false →
  cut sep (before +:+ String sep after) = Some (before, after).
Proof.
  induction before as [|c before IH]; simpl; intros Hc.
  - by rewrite Ascii.eqb_refl.
  - apply orb_false_iff in Hc as [Hc1 Hc2]. rewrite Hc1, (IH Hc2). done.
Qed.

Lemma cut_spec sep s before after :
  cut sep s = Some (before, after) ↔
  s = before +:+ String sep after ∧ contains sep before = false.
Proof.
  split; [apply cut_Some |]. intros [-> Hc]. by apply cut_append.
Qed.

Lemma collectHosts_omap slaves :
  collectHosts slaves = omap (λ slave, pidHost (Pid slave)) slaves.
Proof.
  unfold collectHosts.
  assert (H : ∀ acc,
    foldl (λ hosts slave, match pidHost (Pid slave) with
                          | Some host => hosts ++ [host]
                          | None => hosts
                          end) acc slaves
    = acc ++ omap (λ slave, pidHost (Pid slave)) slaves).
  { induction slaves as [|s slaves IH]; intros acc; simpl.
    - by rewrite app_nil_r.
    - rewrite IH. destruct (pidHost (Pid s)); [| done].
      by rewrite <- app_assoc. }
  apply (H []).
Qed.

Lemma pidHost_nonempty pid h : pidHost pid = Some h → h ≠ "".
Proof.
  unfold pidHost, SplitN2. case_bool_decide; [done |].
  destruct (cut "@"%char pid) as [[before after]|]; [| done].
  case_bool_decide as Hlen; [| done]. intros [= <-] ->. simpl in Hlen. lia.
Qed.

(** X19.  The host [EnumerateSlaves] takes from a slave pid: a pid yields the
    host [h] exactly when [h] is not empty and the pid is some text without
    ["@"], then ["@"], then [h]; so the host is everything after the first
    ["@"], and an empty pid, a pid without ["@"] and a pid that ends at its
    first ["@"] yield nothing. *)
Theorem pidHost_spec (pid h : string) :
  pidHost pid = Some h ↔
  h ≠ "" ∧ ∃ before, pid = before +:+ "@" +:+ h ∧ contains "@"%char before = false.
Proof.
  unfold pidHost, SplitN2. split.
  - case_bool_decide as Hpid; [done |].
    destruct (cut "@"%char pid) as [[before after]|] eqn:Hcut; [| done].
    case_bool_decide as Hlen; [| done]. intros [= <-].
    apply cut_spec in Hcut as [-> Hc]. split; [| eauto].
    intros ->. simpl in Hlen. lia.
  - intros (Hh & before & -> & Hc).
    rewrite bool_decide_eq_false_2 by (by destruct before).
    change ("@" +:+ h) with (String "@"%char h). rewrite (cut_append _ _ _ Hc).
    rewrite bool_decide_eq_true_2; [done |].
    destruct h; [done | simpl; lia].
Qed.

Lemma pidHost_spec_witness :
  pidHost "slave(1)@10.22.211.18:5051" = Some "10.22.211.18:5051".
Proof.
  apply (pidHost_spec "slave(1)@10.22.211.18:5051" "10.22.211.18:5051").
  split; [discriminate |]. exists "slave(1)". split; reflexivity.
Defined.

(** X20.  The response handler of [EnumerateSlaves] reports hosts only when
    it returns nil, which takes a response with status 200, a readable body
    and decodable JSON; then the hosts are, in the order of the slaves, the
    hosts of the slaves whose pid has one, each of them non-empty, and the
    other slaves are skipped without error.  A transport error is handed
    back as it is, and any other status gives an error naming it. *)
Theorem enumerateHandler_spec
    (unmarshalMaster : string → list SlaveEntry + clientError)
    (res : HttpResponse + clientError) :
  let r := enumerateHandler unmarshalMaster res in
  (is_Some r.2 → r.1 = []) ∧
  (∀ err, res = inr err → r.2 = Some err) ∧
  (∀ resp, res = inl resp → StatusCode resp ≠ 200 →
           r.2 = Some (statusErr (StatusCode resp) (Status resp))) ∧
  (r.2 = None →
     ∃ resp blob slaves,
       res = inl resp ∧ StatusCode resp = 200 ∧ Body resp = inl blob ∧
       unmarshalMaster blob = inl slaves ∧
       r.1 = omap (λ slave, pidHost (Pid slave)) slaves ∧
       length r.1 ≤ length slaves ∧
       ∀ h, h ∈ r.1 → h ≠ "").
Proof.
  cbv zeta. unfold enumerateHandler. destruct res as [resp|err].
  2:{ split_and!; try done. by intros err' [= ->]. }
  case_bool_decide as Hcode; cbn [negb].
  2:{ split_and!; try done. by intros resp' [= <-]. }
  destruct (Body resp) as [blob|err1] eqn:Hbody.
  2:{ split_and!; try done. intros resp' [= <-]. done. }
  destruct (unmarshalMaster blob) as [slaves|err] eqn:Hjson.
  2:{ split_and!; try done. intros resp' [= <-]. done. }
  cbn [fst snd]. split_and!; try done.
  - intros resp' [= <-] Hne. done.
  - intros _. exists resp, blob, slaves. rewrite collectHosts_omap.
    split_and!; try done.
    + clear. induction slaves as [|s slaves IH]; csimpl; [done |].
      destruct (pidHost (Pid s)); csimpl; lia.
    + intros h (slave & _ & Hh)%list_elem_of_omap. apply pidHost_nonempty in Hh.
      done.
Qed.

Lemma enumerateHandler_spec_witness :
  (enumerateHandler sampleMaster okResponse).1 = ["10.22.211.18:5051"] ∧
  ∀ h, h ∈ (enumerateHandler sampleMaster okResponse).1 → h ≠ "".
Proof.
  split; [reflexivity |].
  destruct (enumerateHandler_spec sampleMaster okResponse) as (_ & _ & _ & H).
  destruct H as (resp & blob & slaves & _ & _ & _ & _ & _ & _ & H); [reflexivity |].
  exact H.
Defined.



(** X22.  [EnlistedSlaves] fails only when the enumeration of the slaves
    failed, and then with that error and no list.  Otherwise it returns nil
    as error, whatever the probes of the single slaves returned, and the list
    holds exactly the hosts of the enumerated slaves on which the probe found
    the executor and whose address splits into host and port. *)
Theorem EnlistedSlaves_spec
    (probe : string → bool * option clientError)
    (SplitHostPort : string → option (string * string))
    (slaves : list string) (enumErr : option clientError) :
  let r := EnlistedSlaves probe SplitHostPort (slaves, enumErr) in
  (∀ err, enumErr = Some err → r = (None, Some err)) ∧
  (enumErr = None →
     r.2 = None ∧
     ∃ results, r.1 = Some results ∧
       ∀ h, h ∈ results ↔
            ∃ slave port, slave ∈ slaves ∧ (probe slave).1 = true ∧
                          SplitHostPort slave = Some (h, port)).
Proof.
  cbv zeta. split.
  - intros err ->. done.
  - intros ->. simpl. split; [done |]. eexists. split; [reflexivity |].
    assert (H : ∀ acc h,
      h ∈ foldl (λ results slave,
                   if (probe slave).1 then
                     match SplitHostPort slave with
                     | Some (host, _) => results ++ [host]
                     | None => results
                     end
                   else results) acc slaves
      ↔ h ∈ acc ∨ ∃ slave port, slave ∈ slaves ∧ (probe slave).1 = true ∧
                                SplitHostPort slave = Some (h, port)).
    { induction slaves as [|s slaves IH]; intros acc h; simpl.
      - split; [by left |]. intros [?|(? & ? & ?%not_elem_of_nil & _)]; done.
      - rewrite IH. destruct ((probe s).1) eqn:Hp.
        + destruct (SplitHostPort s) as [[host port]|] eqn:Hs.
          * rewrite elem_of_app, list_elem_of_singleton. split.
            -- intros [[?| ->]|(slave & p & Hin & ? & ?)]; [by left | right.. ].
               ++ exists s, port. split_and!; [left | done | done].
               ++ exists slave, p. split_and!; [by right | done | done].
            -- intros [?|(slave & p & [->|Hin]%elem_of_cons & Hf & Hsp)].
               ++ by left; left.
               ++ left; right. congruence.
               ++ right. eauto.
          * split.
            -- intros [?|(slave & p & Hin & ? & ?)]; [by left | right].
               exists slave, p. split_and!; [by right | done | done].
            -- intros [?|(slave & p & [->|Hin]%elem_of_cons & Hf & Hsp)];
                 [by left | congruence | right; eauto].
        + split.
          * intros [?|(slave & p & Hin & ? & ?)]; [by left | right].
            exists slave, p. split_and!; [by right | done | done].
          * intros [?|(slave & p & [->|Hin]%elem_of_cons & Hf & Hsp)];
              [by left | congruence | right; eauto]. }
    intros h. rewrite H. split; [intros [?%not_elem_of_nil|?]; done | by right].
Qed.

Lemma EnlistedSlaves_spec_witness :
  ∃ results,
    (EnlistedSlaves sampleProbe sampleSplitHostPort
       (["10.22.211.18:5051"; "10.22.211.19:5051"], None)).1 = Some results ∧
    "10.22.211.18" ∈ results.
Proof.
  destruct (EnlistedSlaves_spec sampleProbe sampleSplitHostPort
              ["10.22.211.18:5051"; "10.22.211.19:5051"] None) as [_ H].
  destruct H as (_ & results & Hr & Hin); [reflexivity |].
  exists results. split; [exact Hr |]. apply Hin.
  exists "10.22.211.18:5051", "5051". split_and!; [left | reflexivity | reflexivity].
Defined.

(** X23.  [httpDo] cannot get stuck: from every state it can reach, as long
    as [client.Do] eventually hands some response to the handler, there is a
    way on to a state where [httpDo] has returned.  In particular the wait
    for the handler after a cancellation always ends, because the result of
    the finished handler is still in the channel. *)
Theorem httpDo_can_always_return {Response error : Type}
    (f : Response → option error) (ctxErr : error) (res0 : Response)
    (s : State Response error) :
  reachable f ctxErr s →
  ∃ s' err, rtc (step f ctxErr) s s' ∧ caller s' = Returned err.
Proof.
  intros Hr.
  assert (Hfin : ∀ s1 res, reachable f ctxErr s1 → handler s1 = Finished res →
    ∃ s' err, rtc (step f ctxErr) s1 s' ∧ caller s' = Returned err).
  { intros s1 res Hr1 Hf. pose proof (resultKept_reachable f ctxErr s1 Hr1) as Hk.
    unfold resultKept in Hk. destruct (caller s1) as [| |err] eqn:Hc.
    - eexists _, _. split; [apply rtc_once; eapply step_select_recv; eauto |].
      reflexivity.
    - eexists _, _. split; [apply rtc_once; eapply step_wait_recv; eauto |].
      reflexivity.
    - exists s1, err. split; [apply rtc_refl | done]. }
  assert (Hin : ∀ s1 res, reachable f ctxErr s1 → handler s1 = InHandler res →
    ∃ s' err, rtc (step f ctxErr) s1 s' ∧ caller s' = Returned err).
  { intros s1 res Hr1 Hh.
    pose proof (step_handler_returns _ _ f ctxErr s1 res Hh) as Hstep.
    destruct (Hfin _ res (rtc_r _ _ _ Hr1 Hstep) eq_refl) as (s' & err & Hrtc & Hc).
    exists s', err. split; [eapply rtc_l; eauto | done]. }
  destruct (handler s) as [|res|res] eqn:Hh.
  - pose proof (step_do_returns _ _ f ctxErr s res0 Hh) as Hstep.
    destruct (Hin _ res0 (rtc_r _ _ _ Hr Hstep) eq_refl) as (s' & err & Hrtc & Hc).
    exists s', err. split; [eapply rtc_l; eauto | done].
  - eapply Hin; eauto.
  - eapply Hfin; eauto.
Qed.

Lemma httpDo_can_always_return_witness :
  ∃ s' err, rtc (step sampleHandler "context canceled")
                (mkState WaitingForHandler InFlight None true true) s' ∧
            caller s' = Returned err.
Proof.
  apply (httpDo_can_always_return sampleHandler "context canceled" 200).
  unfold reachable.
  eapply rtc_l; [apply step_ctx_done; reflexivity | simpl].
  eapply rtc_l; [apply step_select_done; reflexivity | simpl].
  apply rtc_refl.
Defined.

(** X24.  [httpDo] cancels the request only once the context is done, and
    whatever is in its channel is the result of the handler, which has then
    finished. *)
Theorem httpDo_cancels_only_when_done {Response error : Type}
    (f : Response → option error) (ctxErr : error) (s : State Response error) :
  reachable f ctxErr s →
  (cancelRequested s = true → done s = true) ∧
  (∀ e, ch s = Some e → ∃ res, handler s = Finished res ∧ e = f res).
Proof.
  intros Hr. destruct (MesosClientSpec.inv_reachable f ctxErr s Hr) as [Hch Hc].
  split; [| exact Hch]. intros Hcancel.
  destruct (caller s).
  - congruence.
  - by destruct Hc.
  - destruct Hc as (res & _ & [(_ & Hd & _)|(Hn & _)]); [done | congruence].
Qed.

Lemma httpDo_cancels_only_when_done_witness :
  (cancelRequested cancelledRun = true → done cancelledRun = true) ∧
  (∀ e, ch cancelledRun = Some e →
        ∃ res, handler cancelledRun = Finished res ∧ e = sampleHandler res).
Proof.
  apply (httpDo_cancels_only_when_done sampleHandler "context canceled" cancelledRun).
  unfold reachable.
  eapply rtc_l; [apply step_ctx_done; reflexivity | simpl].
  eapply rtc_l; [apply step_select_done; reflexivity | simpl].
  eapply rtc_l; [apply step_do_returns with (res := 200); reflexivity | simpl].
  eapply rtc_l; [apply step_handler_returns with (res := 200); reflexivity | simpl].
  eapply rtc_l; [apply step_wait_recv with (err := None); reflexivity | simpl].
  apply rtc_refl.
Defined.

End MesosClientExtra.
